(** * GOST R 34.10-2012 style signatures: the arithmetic core of the variants

    A shallow embedding of the elliptic-curve signature code found in
    [main.py], [main1.py] and [main_v2.py] .. [main_v6.py], and the
    properties of it that the specification states.

    Conventions of the embedding.
    - Python [int] is [Z].  Python's [%] and [//] are floor based, the sign
      of [%] follows the divisor: these are [Z.modulo] and [Z.div].  The two
      differ from Python only for a zero divisor, where Python raises
      [ZeroDivisionError]; the moduli of the code are the non-zero curve
      constants, and the routine that receives its modulus as an argument
      guards the case explicitly.
    - A point is [None] (the point at infinity) or a pair, as in the code.
    - A call that may raise returns a [res]: a value, a Python exception,
      or [OutOfFuel] when the bound put on a [while] loop is reached.
    - The hash function is a collaborator: the functions take the integer
      it returns.  The random generators are collaborators too: they are
      streams of answers, indexed by the number of calls made so far. *)

From Stdlib Require Import ZArith Lia Bool List NsatzTactic.
Import ListNotations.

Local Open Scope Z_scope.

(** ** Python values and exceptions *)

Inductive exn : Type :=
| ValueError
| TypeError
| ZeroDivisionError.

Inductive res (A : Type) : Type :=
| Ok (a : A)
| Raise (e : exn)
| OutOfFuel.

Arguments Ok {A} a.
Arguments Raise {A} e.
Arguments OutOfFuel {A}.

Definition bind {A B : Type} (m : res A) (k : A -> res B) : res B :=
  match m with
  | Ok a => k a
  | Raise e => Raise e
  | OutOfFuel => OutOfFuel
  end.

Notation "x <- m ;; k" := (bind m (fun x => k))
  (at level 61, m at next level, right associativity).

(** [try: m except ValueError: h] *)
Definition catch_ValueError {A : Type} (m : res A) (h : res A) : res A :=
  match m with
  | Raise ValueError => h
  | _ => m
  end.

(** A curve point as the code holds it: [None] or a tuple [(x, y)]. *)
Definition point : Type := option (Z * Z).

(** [p1 == p2] on two tuples of integers. *)
Definition tuple_eqb (p1 p2 : Z * Z) : bool :=
  (fst p1 =? fst p2) && (snd p1 =? snd p2).

(** Number of iterations granted to a Euclidean loop whose larger operand
    is [m]: every iteration removes at least one from
    [Z.log2 low + Z.log2 high]. *)
Definition euclid_fuel (m : Z) : nat := S (Z.to_nat (2 * Z.log2 (Z.abs m))).

(** Number of iterations granted to a loop that shifts [k] right until it
    is zero. *)
Definition bits_fuel (k : Z) : nat := S (Z.to_nat (Z.log2 k + 1)).

(** ** main.py *)

Module main.

(** [inverse_modulo], lines 15-37. *)
Fixpoint inverse_modulo_loop (fuel : nat) (a b low high : Z) : res Z :=
  match fuel with
  | O => OutOfFuel
  | S fuel' =>
      if low >? 1 then
        let quotient := high / low in
        inverse_modulo_loop fuel' (b - a * quotient) a
                            (high - low * quotient) low
      else Ok a
  end.

Definition inverse_modulo (value modulus : Z) : res Z :=
  if value =? 0 then Raise ValueError
  else if modulus =? 0 then Raise ZeroDivisionError
  else
    a <- inverse_modulo_loop (euclid_fuel modulus) 1 0
                             (value mod modulus) modulus ;;
    Ok (a mod modulus).

Section Curve.

(** The module constants of lines 7-13. *)
Variables PRIME COEFF_A ORDER : Z.
Variable START_POINT : Z * Z.

(** [curve_point_sum], lines 39-64. *)
Definition curve_point_sum (p1 p2 : point) : res point :=
  match p1, p2 with
  | None, _ => Ok p2
  | _, None => Ok p1
  | Some (x1, y1), Some (x2, y2) =>
      if (x1 =? x2) && ((y1 + y2) mod PRIME =? 0) then Ok None
      else
        gradient <-
          (if tuple_eqb (x1, y1) (x2, y2) then
             i <- inverse_modulo (2 * y1) PRIME ;;
             Ok ((3 * x1 * x1 + COEFF_A) * i mod PRIME)
           else
             i <- inverse_modulo (x2 - x1) PRIME ;;
             Ok ((y2 - y1) * i mod PRIME)) ;;
        let x_new := (gradient * gradient - x1 - x2) mod PRIME in
        let y_new := (gradient * (x1 - x_new) - y1) mod PRIME in
        Ok (Some (x_new, y_new))
  end.

(** [multiply_point], lines 66-84: the [while factor > 0] loop. *)
Fixpoint multiply_point_loop (fuel : nat) (factor : Z)
         (current temp_point : point) : res point :=
  match fuel with
  | O => OutOfFuel
  | S fuel' =>
      if factor >? 0 then
        current' <- (if negb (Z.land factor 1 =? 0)
                     then curve_point_sum current temp_point
                     else Ok current) ;;
        temp_point' <- curve_point_sum temp_point temp_point ;;
        multiply_point_loop fuel' (Z.shiftr factor 1) current' temp_point'
      else Ok current
  end.

Definition multiply_point (factor : Z) (pt : point) : res point :=
  multiply_point_loop (bits_fuel factor) factor None pt.

(** [create_keypair], lines 108-116.  [randbelow i] is the answer of the
    [i]-th call [secrets.randbelow(ORDER - 1)]; the state threaded through
    is the number of calls made.  The pair returned is
    [(secret_key, open_key)]. *)
Variable randbelow : nat -> Z.

Definition create_keypair (calls : nat) : res (Z * point * nat) :=
  let secret_key := randbelow calls + 1 in
  open_key <- multiply_point secret_key (Some START_POINT) ;;
  Ok (secret_key, open_key, S calls).

(** One turn of the [while True] loop of [generate_signature], lines
    132-141: [None] stands for [continue], and for falling through when
    [s_val] is zero; [Some] for [break]. *)
Definition signature_attempt (hash_val secret_key temp_k : Z)
  : res (option (Z * Z)) :=
  temp_point <- multiply_point temp_k (Some START_POINT) ;;
  match temp_point with
  | None => Ok None
  | Some (x, _) =>
      let r_val := x mod ORDER in
      if r_val =? 0 then Ok None
      else
        let s_val := (r_val * secret_key + temp_k * hash_val) mod ORDER in
        if negb (s_val =? 0) then Ok (Some (r_val, s_val)) else Ok None
  end.

Fixpoint generate_signature_loop (fuel : nat) (hash_val secret_key : Z)
         (calls : nat) : res (Z * Z * nat) :=
  match fuel with
  | O => OutOfFuel
  | S fuel' =>
      let temp_k := randbelow calls + 1 in
      a <- signature_attempt hash_val secret_key temp_k ;;
      match a with
      | Some sig => Ok (sig, S calls)
      | None => generate_signature_loop fuel' hash_val secret_key (S calls)
      end
  end.

(** [generate_signature], lines 118-142; [fuel] bounds the number of
    turns of a loop that the code leaves unbounded. *)
Definition generate_signature (fuel : nat) (secret_key digest : Z)
           (calls : nat) : res (Z * Z * nat) :=
  let hash_val := digest mod ORDER in
  let hash_val := if hash_val =? 0 then 1 else hash_val in
  generate_signature_loop fuel hash_val secret_key calls.

(** [check_signature], lines 144-168. *)
Definition check_signature (digest : Z) (signature : Z * Z)
           (open_key : point) : res bool :=
  let '(r_val, s_val) := signature in
  if negb ((1 <=? r_val) && (r_val <? ORDER)
           && (1 <=? s_val) && (s_val <? ORDER))
  then Ok false
  else
    let hash_val := digest mod ORDER in
    let hash_val := if hash_val =? 0 then 1 else hash_val in
    inverse_hash <- inverse_modulo hash_val ORDER ;;
    let u1 := (s_val * inverse_hash) mod ORDER in
    let u2 := (- r_val * inverse_hash) mod ORDER in
    a <- multiply_point u1 (Some START_POINT) ;;
    b <- multiply_point u2 open_key ;;
    result_point <- curve_point_sum a b ;;
    match result_point with
    | None => Ok false
    | Some (x, _) => Ok (x mod ORDER =? r_val)
    end.

End Curve.

(** The constants of lines 7-13. *)
Definition PRIME : Z :=
  0xFFFFFFFFFFFFFFFFFFFFFFFFFFFFFFFFFFFFFFFFFFFFFFFFFFFFFFFFFFFFFD97.
Definition COEFF_A : Z :=
  0xFFFFFFFFFFFFFFFFFFFFFFFFFFFFFFFFFFFFFFFFFFFFFFFFFFFFFFFFFFFFFD94.
Definition COEFF_B : Z := 0xA6.
Definition ORDER : Z :=
  0xFFFFFFFFFFFFFFFFFFFFFFFFFFFFFFFF6C611070995AD10045841B09B761B893.
Definition BASE_X : Z := 0x1.
Definition BASE_Y : Z :=
  0x8D91E471E0989CDA27DF505A453F2B7635294F2DDF23E3B122ACC99C9E9F1E14.
Definition START_POINT : Z * Z := (BASE_X, BASE_Y).

End main.

(** ** main1.py *)

Module main1.

(** [extended_gcd], the function nested in [mod_inverse], lines 18-24. *)
Fixpoint extended_gcd (fuel : nat) (a b : Z) : res (Z * Z * Z) :=
  match fuel with
  | O => OutOfFuel
  | S fuel' =>
      if a =? 0 then Ok (b, 0, 1)
      else
        r <- extended_gcd fuel' (b mod a) a ;;
        let '(gcd, x1, y1) := r in
        let x := y1 - (b / a) * x1 in
        let y := x1 in
        Ok (gcd, x, y)
  end.

(** Recursion depth granted to [extended_gcd a b]. *)
Definition gcd_fuel (a b : Z) : nat :=
  S (S (S (Z.to_nat (Z.log2 (Z.abs a) + Z.log2 (Z.abs b))))).

(** [mod_inverse], lines 17-28. *)
Definition mod_inverse (a m : Z) : res Z :=
  r <- extended_gcd (gcd_fuel a m) a m ;;
  let '(gcd, x, _) := r in
  if negb (gcd =? 1) then Raise ValueError
  else if m =? 0 then Raise ZeroDivisionError
  else Ok ((x mod m + m) mod m).

Section Curve.

(** The module constants of lines 8-15. *)
Variables p a b q : Z.

(** [point_add], lines 30-47. *)
Definition point_add (P Q : point) : res point :=
  match P, Q with
  | None, _ => Ok Q
  | _, None => Ok P
  | Some (x1, y1), Some (x2, y2) =>
      if (x1 =? x2) && ((y1 + y2) mod p =? 0) then Ok None
      else
        r <-
          (if tuple_eqb (x1, y1) (x2, y2) then
             if y1 =? 0 then Ok None
             else
               i <- mod_inverse (2 * y1) p ;;
               Ok (Some (((3 * x1 * x1 + a) * i) mod p))
           else
             i <- mod_inverse ((x2 - x1) mod p) p ;;
             Ok (Some (((y2 - y1) * i) mod p))) ;;
        match r with
        | None => Ok None
        | Some lam =>
            let x3 := (lam * lam - x1 - x2) mod p in
            let y3 := (lam * (x1 - x3) - y1) mod p in
            Ok (Some (x3, y3))
        end
  end.

(** [point_mult], lines 49-58. *)
Fixpoint point_mult_loop (fuel : nat) (k : Z) (result temp : point)
  : res point :=
  match fuel with
  | O => OutOfFuel
  | S fuel' =>
      if k >? 0 then
        result' <- (if negb (Z.land k 1 =? 0)
                    then point_add result temp
                    else Ok result) ;;
        temp' <- point_add temp temp ;;
        point_mult_loop fuel' (Z.shiftr k 1) result' temp'
      else Ok result
  end.

Definition point_mult (k : Z) (P : point) : res point :=
  let k := k mod q in
  point_mult_loop (bits_fuel k) k None P.

(** [is_on_curve], lines 60-63. *)
Definition is_on_curve (x y : Z) : bool :=
  let left := (y * y) mod p in
  let right := (x * x * x + a * x + b) mod p in
  left =? right.

End Curve.

(** The constants of lines 8-15. *)
Definition p : Z :=
  0xFFFFFFFF00000001000000000000000000000000FFFFFFFFFFFFFFFFFFFFFFFF.
Definition a : Z :=
  0xFFFFFFFF00000001000000000000000000000000FFFFFFFFFFFFFFFFFFFFFFFC.
Definition b : Z :=
  0x5AC635D8AA3A93E7B3EBBD55769886BC651D06B0CC53B0F63BCE3C3E27D2604B.
Definition G : Z * Z :=
  (0x6B17D1F2E12C4247F8BCE6E563A440F277037D812DEB33A0F4A13945D898C296,
   0x4FE342E2FE1A7F9B8EE7EB4A7C0F9E162BCE33576B315ECECBB6406837BF51F5).
Definition q : Z :=
  0xFFFFFFFF00000000FFFFFFFFFFFFFFFFBCE6FAADA7179E84F3B9CAC2FC632551.

End main1.

(** ** main_v2.py *)

Module main_v2.

(** The constants of lines 8-12; [main_v3.py] and [main_v4.py] configure
    the same five values. *)
Definition p : Z :=
  57896044618658097711785492504343953926634992332820282019728792003956564823193.
Definition a : Z := 7.
Definition b : Z :=
  43308876546767276905765904595650931995942111794451039587316730224963703718511.
Definition G : Z * Z :=
  (2, 4018974056539037503335449422937059775635739389905545080690979365213431566280).
Definition q : Z :=
  57896044618658097711785492504343953926634992332820282019728792003956564823193.

(** [mod_inverse], lines 14-27, is the text of [main1.mod_inverse]. *)
Definition mod_inverse : Z -> Z -> res Z := main1.mod_inverse.

Section Curve.

(** The module constants, as parameters. *)
Variables p a q : Z.

(** [point_add], lines 29-47. *)
Definition point_add (P Q : point) : res point :=
  match P, Q with
  | None, _ => Ok Q
  | _, None => Ok P
  | Some (x1, y1), Some (x2, y2) =>
      if (x1 =? x2) && (y1 =? (- y2) mod p) then Ok None
      else
        lam <-
          (if (x1 =? x2) && (y1 =? y2) then
             i <- mod_inverse (2 * y1) p ;;
             Ok (((3 * x1 * x1 + a) * i) mod p)
           else
             i <- mod_inverse (x2 - x1) p ;;
             Ok (((y2 - y1) * i) mod p)) ;;
        let x3 := (lam * lam - x1 - x2) mod p in
        let y3 := (lam * (x1 - x3) - y1) mod p in
        Ok (Some (x3, y3))
  end.

(** [point_mult], lines 49-59. *)
Fixpoint point_mult_loop (fuel : nat) (k : Z) (result temp : point)
  : res point :=
  match fuel with
  | O => OutOfFuel
  | S fuel' =>
      if k >? 0 then
        result' <- (if negb (Z.land k 1 =? 0)
                    then point_add result temp
                    else Ok result) ;;
        temp' <- point_add temp temp ;;
        point_mult_loop fuel' (Z.shiftr k 1) result' temp'
      else Ok result
  end.

Definition point_mult (k : Z) (P : point) : res point :=
  let k := k mod q in
  point_mult_loop (bits_fuel k) k None P.

End Curve.

End main_v2.

(** ** main_v3.py *)

Module main_v3.

(** [mod_inverse], lines 14-27, is the text of [main1.mod_inverse]. *)
Definition mod_inverse : Z -> Z -> res Z := main1.mod_inverse.

Section Curve.

(** The module constants of lines 8-12. *)
Variables p a q : Z.

(** [point_add], lines 29-51. *)
Definition point_add (P Q : point) : res point :=
  match P, Q with
  | None, _ => Ok Q
  | _, None => Ok P
  | Some (x1, y1), Some (x2, y2) =>
      if (x1 =? x2) && (y1 =? (- y2) mod p) then Ok None
      else
        r <-
          (if (x1 =? x2) && (y1 =? y2) then
             if y1 =? 0 then Ok None
             else
               i <- mod_inverse (2 * y1) p ;;
               Ok (Some (((3 * x1 * x1 + a) * i) mod p))
           else
             if x1 =? x2 then Ok None
             else
               i <- mod_inverse ((x2 - x1) mod p) p ;;
               Ok (Some (((y2 - y1) * i) mod p))) ;;
        match r with
        | None => Ok None
        | Some lam =>
            let x3 := (lam * lam - x1 - x2) mod p in
            let y3 := (lam * (x1 - x3) - y1) mod p in
            Ok (Some (x3, y3))
        end
  end.

(** [point_mult], lines 53-65. *)
Fixpoint point_mult_loop (fuel : nat) (k : Z) (result temp : point)
  : res point :=
  match fuel with
  | O => OutOfFuel
  | S fuel' =>
      if k >? 0 then
        result' <- (if negb (Z.land k 1 =? 0)
                    then point_add result temp
                    else Ok result) ;;
        temp' <- point_add temp temp ;;
        point_mult_loop fuel' (Z.shiftr k 1) result' temp'
      else Ok result
  end.

Definition point_mult (k : Z) (P : point) : res point :=
  if (k =? 0) || (match P with None => true | Some _ => false end)
  then Ok None
  else
    let k := k mod q in
    point_mult_loop (bits_fuel k) k None P.

End Curve.

(** The functions that follow, and the three above, are also those of
    [main_v4.py], which adds docstrings to them. *)
Section Protocol.

(** The module constants of lines 8-12, as parameters. *)
Variables p a q : Z.
Variable G : Z * Z.

(** [randbelow i] is the answer of the [i]-th call
    [secrets.randbelow(q - 1)]. *)
Variable randbelow : nat -> Z.

(** [generate_keypair], lines 67-73. *)
Definition generate_keypair (calls : nat) : res (Z * (Z * Z) * nat) :=
  let d := randbelow calls + 1 in
  Q <- point_mult p a q d (Some G) ;;
  match Q with
  | None => Raise ValueError
  | Some Q => Ok (d, Q, S calls)
  end.

(** The [while True] loop of [sign_file], lines 88-98. *)
Fixpoint sign_file_loop (fuel : nat) (h private_key : Z) (calls : nat)
  : res (Z * Z * nat) :=
  match fuel with
  | O => OutOfFuel
  | S fuel' =>
      let k := randbelow calls + 1 in
      R <- point_mult p a q k (Some G) ;;
      match R with
      | None => sign_file_loop fuel' h private_key (S calls)
      | Some (x, _) =>
          let r := x mod q in
          if r =? 0 then sign_file_loop fuel' h private_key (S calls)
          else
            i <- mod_inverse k q ;;
            let s := (i * (h + private_key * r)) mod q in
            if negb (s =? 0) then Ok (r, s, S calls)
            else sign_file_loop fuel' h private_key (S calls)
      end
  end.

(** [sign_file], lines 75-99, from the digest of the file. *)
Definition sign_file (fuel : nat) (digest private_key : Z) (calls : nat)
  : res (Z * Z * nat) :=
  let h := digest mod q in
  sign_file_loop fuel h private_key calls.

(** [verify_file], lines 101-129, from the digest of the file. *)
Definition verify_file (digest : Z) (signature : Z * Z)
           (public_key : Z * Z) : res bool :=
  let '(r, s) := signature in
  if negb ((1 <=? r) && (r <? q) && (1 <=? s) && (s <? q)) then Ok false
  else
    let h := digest mod q in
    match mod_inverse s q with
    | Raise ValueError => Ok false
    | Raise e => Raise e
    | OutOfFuel => OutOfFuel
    | Ok w =>
        let u1 := (h * w) mod q in
        let u2 := (r * w) mod q in
        P1 <- point_mult p a q u1 (Some G) ;;
        P2 <- point_mult p a q u2 (Some public_key) ;;
        R <- point_add p a P1 P2 ;;
        match R with
        | None => Ok false
        | Some (x, _) => Ok (x mod q =? r)
        end
    end.

End Protocol.

End main_v3.

(** ** main_v5.py *)

Module main_v5.

(** The constants of lines 7-14. *)
Definition p : Z :=
  0xFFFFFFFFFFFFFFFFFFFFFFFFFFFFFFFFFFFFFFFFFFFFFFFFFFFFFFFFFFFFFD97.
Definition a : Z :=
  0xFFFFFFFFFFFFFFFFFFFFFFFFFFFFFFFFFFFFFFFFFFFFFFFFFFFFFFFFFFFFFD94.
Definition b : Z := 0xA6.
Definition G : Z * Z :=
  (0x1, 0x8D91E471E0980C1F5D1F4D8C5B6A8B6F7E7E3D9E0B6E6B6E7E3D9E0B6E6B6E7).
Definition q : Z :=
  0xFFFFFFFFFFFFFFFFFFFFFFFFFFFFFFFF6C611070995AD10045841B09B761B893.

(** [mod_inverse], [point_add] and [point_mult], lines 16-57, are the text
    of the functions of these names in [main1.py], over the constants
    above. *)
Definition mod_inverse : Z -> Z -> res Z := main1.mod_inverse.
Definition point_add : point -> point -> res point := main1.point_add p a.
Definition point_mult : Z -> point -> res point := main1.point_mult p a q.

Section Signing.

(** [randbelow i] is the answer of the [i]-th call
    [secrets.randbelow(q - 1)]. *)
Variable randbelow : nat -> Z.

(** The [while True] loop of [sign_file], lines 87-97. *)
Fixpoint sign_file_loop (fuel : nat) (h d : Z) (calls : nat)
  : res (Z * Z * nat) :=
  match fuel with
  | O => OutOfFuel
  | S fuel' =>
      let k := randbelow calls + 1 in
      R <- point_mult k (Some G) ;;
      match R with
      | None => sign_file_loop fuel' h d (S calls)
      | Some (x, _) =>
          let r := x mod q in
          if r =? 0 then sign_file_loop fuel' h d (S calls)
          else
            i <- mod_inverse k q ;;
            let s := (i * (h + d * r)) mod q in
            if negb (s =? 0) then Ok (r, s, S calls)
            else sign_file_loop fuel' h d (S calls)
      end
  end.

(** [sign_file], lines 70-101, from the digest of the file and the private
    key read from [private_key.txt] to the pair written to
    [signature.txt]. *)
Definition sign_file (fuel : nat) (digest d : Z) (calls : nat)
  : res (Z * Z * nat) :=
  let h := digest mod q in
  sign_file_loop fuel h d calls.

End Signing.

End main_v5.

(** ** main_v6.py *)

Module main_v6.

(** [extended_gcd], lines 14-19. *)
Fixpoint extended_gcd (fuel : nat) (a b : Z) : res (Z * Z * Z) :=
  match fuel with
  | O => OutOfFuel
  | S fuel' =>
      if a =? 0 then Ok (b, 0, 1)
      else
        r <- extended_gcd fuel' (b mod a) a ;;
        let '(g, y, x) := r in
        Ok (g, x - (b / a) * y, y)
  end.

(** [inverse_mod], lines 21-26: [None] when there is no inverse. *)
Definition inverse_mod (a m : Z) : res (option Z) :=
  r <- extended_gcd (main1.gcd_fuel a m) a m ;;
  let '(g, x, y) := r in
  if negb (g =? 1) then Ok None
  else if m =? 0 then Raise ZeroDivisionError
  else Ok (Some (x mod m)).

Section Curve.

(** The module constants of lines 7-12. *)
Variables p a n xG yG : Z.

(** [double_point], lines 60-78; unpacking [None] raises [TypeError]. *)
Definition double_point (P : point) : res point :=
  match P with
  | None => Raise TypeError
  | Some (x, y) =>
      let x := x mod p in
      let y := y mod p in
      if y =? 0 then Ok None
      else
        inv <- inverse_mod (2 * y) p ;;
        match inv with
        | None => Ok None
        | Some inv =>
            let lam := (3 * x * x + a) * inv mod p in
            let x_r := (lam * lam - 2 * x) mod p in
            let y_r := (lam * (x - x_r) - y) mod p in
            Ok (Some (x_r, y_r))
        end
  end.

(** [add_points], lines 28-57. *)
Definition add_points (P Q : point) : res point :=
  match P, Q with
  | None, _ => Ok Q
  | _, None => Ok P
  | Some (x_p, y_p), Some (x_q, y_q) =>
      let x_p := x_p mod p in
      let y_p := y_p mod p in
      let x_q := x_q mod p in
      let y_q := y_q mod p in
      if (x_p =? x_q) && negb (y_p =? y_q) then Ok None
      else if (x_p =? x_q) && (y_p =? y_q) then double_point P
      else
        inv <- inverse_mod (x_q - x_p) p ;;
        match inv with
        | None => Ok None
        | Some inv =>
            let lam := (y_q - y_p) * inv mod p in
            let x_r := (lam * lam - x_p - x_q) mod p in
            let y_r := (lam * (x_p - x_r) - y_p) mod p in
            Ok (Some (x_r, y_r))
        end
  end.

(** [multiply_point], lines 80-88: the [while k] loop. *)
Fixpoint multiply_point_loop (fuel : nat) (k : Z) (result addend : point)
  : res point :=
  match fuel with
  | O => OutOfFuel
  | S fuel' =>
      if negb (k =? 0) then
        result' <- (if k mod 2 =? 1
                    then add_points result addend
                    else Ok result) ;;
        addend' <- double_point addend ;;
        multiply_point_loop fuel' (k / 2) result' addend'
      else Ok result
  end.

Definition multiply_point (P : point) (k : Z) : res point :=
  multiply_point_loop (bits_fuel k) k None P.

(** [hash_file], lines 90-97, from the digest of the file. *)
Definition hash_file (digest : Z) : Z := digest mod n.

(** [randint i] is the answer of the [i]-th call [random.randint(1, n-1)],
    a call to the generator of the module [random]. *)
Variable randint : nat -> Z.

(** [generate_keys], lines 99-104. *)
Fixpoint generate_keys (fuel : nat) (calls : nat) : res (Z * (Z * Z) * nat) :=
  match fuel with
  | O => OutOfFuel
  | S fuel' =>
      let d := randint calls in
      Q <- multiply_point (Some (xG, yG)) d ;;
      match Q with
      | Some Q => Ok (d, Q, S calls)
      | None => generate_keys fuel' (S calls)
      end
  end.

(** [sign_file], lines 106-117; [R[0]] on [None] raises [TypeError]. *)
Fixpoint sign_file_loop (fuel : nat) (e d : Z) (calls : nat)
  : res (Z * Z * nat) :=
  match fuel with
  | O => OutOfFuel
  | S fuel' =>
      let k := randint calls in
      R <- multiply_point (Some (xG, yG)) k ;;
      match R with
      | None => Raise TypeError
      | Some (x, _) =>
          let r := x mod n in
          if r =? 0 then sign_file_loop fuel' e d (S calls)
          else
            let s := (d * r + k * e) mod n in
            if s =? 0 then sign_file_loop fuel' e d (S calls)
            else Ok (r, s, S calls)
      end
  end.

Definition sign_file (fuel : nat) (digest d : Z) (calls : nat)
  : res (Z * Z * nat) :=
  let e := hash_file digest in
  sign_file_loop fuel e d calls.

(** [verify_signature], lines 119-132. *)
Definition verify_signature (digest : Z) (Q : point) (r s : Z) : res bool :=
  let e := hash_file digest in
  v <- inverse_mod e n ;;
  match v with
  | None => Ok false
  | Some v =>
      let z1 := (s * v) mod n in
      let z2 := (- r * v) mod n in
      P1 <- multiply_point (Some (xG, yG)) z1 ;;
      P2 <- multiply_point Q z2 ;;
      P <- add_points P1 P2 ;;
      match P with
      | None => Ok false
      | Some (x, _) =>
          let r1 := x mod n in
          Ok (r1 =? r)
      end
  end.

End Curve.

(** The constants of lines 7-12. *)
Definition p : Z :=
  57896044618658097711785492504343953926418782139537452191302581570759080747169.
Definition a : Z := 7.
Definition b : Z :=
  43308876546767276905765900574683423135711535271985780914745867236231519206471.
Definition xG : Z := 2.
Definition yG : Z :=
  57896044618658097711785492504343953926418782139537452191302581570759080747168.
Definition n : Z :=
  57896044618658097711785492504343953927082934583725450622380973592137631069619.

End main_v6.

(** ** Definitions of the properties

    What the statements below are written with: the digest value of the
    specification, the curve equation, the relation that [curve_point_sum]
    of main.py computes, multiples of a point, and the enumerations used
    for the two smallest fields. *)

(** [fuel] turns are enough for a loop that halves [k] until it is zero. *)
Definition enough_bits (fuel : nat) (k : Z) : Prop :=
  (0 < fuel)%nat /\ (0 < k -> Z.log2 k + 1 < Z.of_nat fuel).

(** The digest value of the specification: reduced modulo [q], zero
    mapped to one. *)
Definition digest_value (q e : Z) : Z :=
  let r := e mod q in if r =? 0 then 1 else r.

(** Congruence modulo [p]. *)
Definition eqp (p x y : Z) : Prop := x mod p = y mod p.

(** The product of the elements of a list. *)
Fixpoint product (l : list Z) : Z :=
  match l with
  | [] => 1
  | c :: l' => c * product l'
  end.

(** The factors 2, 3, 5 and 7 of [c], followed by what is left of it. *)
Fixpoint smooth_factors (fuel : nat) (c : Z) : list Z :=
  match fuel with
  | O => [c]
  | S fuel' =>
      if c mod 2 =? 0 then 2 :: smooth_factors fuel' (c / 2)
      else if c mod 3 =? 0 then 3 :: smooth_factors fuel' (c / 3)
      else if c mod 5 =? 0 then 5 :: smooth_factors fuel' (c / 5)
      else if c mod 7 =? 0 then 7 :: smooth_factors fuel' (c / 7)
      else [c]
  end.

(** What [curve_point_sum] computes, up to congruence of the coordinates:
    [i] is the inverse it takes and [g] its gradient. *)
Inductive sum_rel (p a : Z) : point -> point -> point -> Prop :=
| sum_left Q : sum_rel p a None Q Q
| sum_right P : sum_rel p a P None P
| sum_opposite x1 y1 x2 y2 :
    eqp p x1 x2 -> eqp p (y1 + y2) 0 ->
    sum_rel p a (Some (x1, y1)) (Some (x2, y2)) None
| sum_tangent x1 y1 x2 y2 x3 y3 i g :
    eqp p x1 x2 -> eqp p y1 y2 -> eqp p (i * (2 * y1)) 1 ->
    eqp p g ((3 * x1 * x1 + a) * i) ->
    eqp p x3 (g * g - x1 - x2) -> eqp p y3 (g * (x1 - x3) - y1) ->
    sum_rel p a (Some (x1, y1)) (Some (x2, y2)) (Some (x3, y3))
| sum_chord x1 y1 x2 y2 x3 y3 i g :
    eqp p (i * (x2 - x1)) 1 ->
    eqp p g ((y2 - y1) * i) ->
    eqp p x3 (g * g - x1 - x2) -> eqp p y3 (g * (x1 - x3) - y1) ->
    sum_rel p a (Some (x1, y1)) (Some (x2, y2)) (Some (x3, y3)).

(** Two points with congruent coordinates. *)
Definition eqP (p : Z) (P Q : point) : Prop :=
  match P, Q with
  | None, None => True
  | Some (x1, y1), Some (x2, y2) => eqp p x1 x2 /\ eqp p y1 y2
  | _, _ => False
  end.

(** The curve equation, modulo [p]. *)
Definition satisfies (p a b : Z) (P : point) : Prop :=
  match P with
  | None => True
  | Some (x, y) => eqp p (y * y) (x * x * x + a * x + b)
  end.

(** A point of the curve as the code holds it: coordinates in [0, p). *)
Definition on_curve (p a b : Z) (P : point) : Prop :=
  match P with
  | None => True
  | Some (x, y) =>
      0 <= x < p /\ 0 <= y < p /\ eqp p (y * y) (x * x * x + a * x + b)
  end.

(** The sum of two points as a function: the value of
    [curve_point_sum]. *)
Definition point_sum (p a : Z) (P Q : point) : point :=
  match main.curve_point_sum p a P Q with
  | Ok R => R
  | _ => None
  end.

(** [n] times the point [P]. *)
Fixpoint multiple (p a : Z) (n : nat) (P : point) : point :=
  match n with
  | O => None
  | S n' => point_sum p a P (multiple p a n' P)
  end.

(** A parameter set as the specification requires it: a prime field of
    more than 3 elements, a curve that is not singular, a base point on
    it, and a prime [q] that, times the base point, gives the identity. *)
Definition valid_parameters (p a b q : Z) (G : Z * Z) : Prop :=
  Z.prime p /\ 3 < p /\
  ~ eqp p (4 * a * a * a + 27 * b * b) 0 /\
  Z.prime q /\
  on_curve p a b (Some G) /\
  main.multiply_point p a q (Some G) = Ok None.

(** A point with its coordinates in [0, p), as the sums return them. *)
Definition reduced (p : Z) (P : point) : Prop :=
  match P with
  | None => True
  | Some (x, y) => 0 <= x < p /\ 0 <= y < p
  end.

(** The opposite of a point. *)
Definition negate (p : Z) (P : point) : point :=
  match P with
  | None => None
  | Some (x, y) => Some (x, (- y) mod p)
  end.

(** The integers of [0, p). *)
Definition residues (p : Z) : list Z := map Z.of_nat (seq 0 (Z.to_nat p)).

Definition point_eqb (P Q : point) : bool :=
  match P, Q with
  | None, None => true
  | Some P, Some Q => tuple_eqb P Q
  | _, _ => false
  end.

Definition on_curveb (p a b : Z) (P : point) : bool :=
  match P with
  | None => true
  | Some (x, y) =>
      (0 <=? x) && (x <? p) && (0 <=? y) && (y <? p)
      && ((y * y) mod p =? (x * x * x + a * x + b) mod p)
  end.

(** The points of the curve, the identity first. *)
Definition curve_points (p a b : Z) : list point :=
  filter (on_curveb p a b)
         (None :: map Some (list_prod (residues p) (residues p))).

Definition associative_on (p a : Z) (l : list point) : bool :=
  forallb (fun P =>
    forallb (fun Q =>
      forallb (fun R =>
        point_eqb (point_sum p a (point_sum p a P Q) R)
                  (point_sum p a P (point_sum p a Q R))) l) l) l.

(** Every non-singular curve over the field of [p] elements has an
    associative sum. *)
Definition associative_field (p : Z) : bool :=
  forallb (fun a =>
    forallb (fun b =>
      ((4 * a * a * a + 27 * b * b) mod p =? 0)
      || associative_on p a (curve_points p a b)) (residues p)) (residues p).

(** Trial division, for the primes of the examples. *)
Fixpoint no_divisor (n : nat) (p : Z) : bool :=
  match n with
  | O => true
  | S n' =>
      ((Z.of_nat n <=? 1) || negb (p mod Z.of_nat n =? 0))
      && no_divisor n' p
  end.

Definition prime_check (p : Z) : bool :=
  (1 <? p) && no_divisor (Z.to_nat (p - 1)) p.

(** ** The Euclidean loops *)

Section Euclid.

(** One division step takes at least one from the size of the larger
    operand. *)
Lemma log2_mod_lt (low high : Z) :
  0 < low < high -> Z.log2 (high mod low) < Z.log2 high.
Proof.
  intros H.
  pose proof (Z.mod_pos_bound high low ltac:(lia)) as Hr.
  assert (Hle : high mod low <= high - low).
  { pose proof (Z.div_mod high low ltac:(lia)) as E.
    assert (1 <= high / low) by (apply Z.div_le_lower_bound; lia).
    nia. }
  destruct (Z.eq_dec (high mod low) 0) as [E | NE].
  - rewrite E. simpl. apply Z.log2_pos. lia.
  - assert (Hd : Z.log2 (2 * (high mod low)) = Z.succ (Z.log2 (high mod low)))
      by (apply Z.log2_double; lia).
    assert (Z.log2 (2 * (high mod low)) <= Z.log2 high)
      by (apply Z.log2_le_mono; lia).
    lia.
Qed.

End Euclid.

Section InverseModulo.

Variables v m : Z.

Lemma inverse_modulo_loop_spec (fuel : nat) :
  forall a b low high,
    0 <= low < high -> 1 < high ->
    Z.log2 low + Z.log2 high < Z.of_nat fuel ->
    (m | a * v - low) -> (m | b * v - high) ->
    exists a',
      main.inverse_modulo_loop fuel a b low high = Ok a' /\
      (Z.gcd low high = 1 -> (m | a' * v - 1)).
Proof.
  induction fuel as [| fuel IH]; intros a b low high Hr Hh Hf Ha Hb.
  - pose proof (Z.log2_nonneg low). pose proof (Z.log2_nonneg high). lia.
  - cbn [main.inverse_modulo_loop].
    destruct (Z.gtb_spec low 1) as [Hlow | Hlow].
    + assert (Hmod : high - low * (high / low) = high mod low)
        by (rewrite Z.mod_eq; lia).
      rewrite Hmod.
      pose proof (Z.mod_pos_bound high low ltac:(lia)) as Hb'.
      pose proof (log2_mod_lt low high ltac:(lia)) as Hlog.
      destruct (IH (b - a * (high / low)) a (high mod low) low)
        as (a' & E & G); try lia.
      * rewrite <- Hmod.
        replace ((b - a * (high / low)) * v - (high - low * (high / low)))
          with ((b * v - high) - (high / low) * (a * v - low)) by ring.
        apply Z.divide_sub_r; [assumption | now apply Z.divide_mul_r].
      * assumption.
      * exists a'. split; [exact E |].
        intros Hg. apply G.
        rewrite Z.gcd_mod by lia. exact Hg.
    + exists a. split; [reflexivity |].
      intros Hg.
      assert (low = 1).
      { destruct (Z.eq_dec low 0) as [-> | ?]; [| lia].
        rewrite Z.gcd_0_l in Hg. lia. }
      subst low. exact Ha.
Qed.

End InverseModulo.

Lemma euclid_fuel_enough (low m : Z) :
  0 <= low < m ->
  Z.log2 low + Z.log2 m < Z.of_nat (euclid_fuel m).
Proof.
  intros H. unfold euclid_fuel.
  rewrite Z.abs_eq by lia.
  pose proof (Z.log2_nonneg m).
  assert (Z.log2 low <= Z.log2 m) by (apply Z.log2_le_mono; lia).
  lia.
Qed.

Lemma main_inverse_modulo_coprime (v m : Z) :
  1 < m -> Z.gcd v m = 1 ->
  exists w, main.inverse_modulo v m = Ok w /\ 0 <= w < m /\ (v * w) mod m = 1.
Proof.
  intros Hm Hg. unfold main.inverse_modulo.
  destruct (Z.eqb_spec v 0) as [-> | Hv].
  { rewrite Z.gcd_0_l in Hg. lia. }
  destruct (Z.eqb_spec m 0) as [-> | _]; [lia |].
  pose proof (Z.mod_pos_bound v m ltac:(lia)) as Hlow.
  destruct (inverse_modulo_loop_spec v m (euclid_fuel m) 1 0 (v mod m) m)
    as (a' & E & G); try lia.
  - now apply euclid_fuel_enough.
  - exists (v / m). rewrite Z.mod_eq by lia. ring.
  - exists (-1). ring.
  - rewrite E. cbn [bind]. exists (a' mod m).
    split; [reflexivity |]. split; [apply Z.mod_pos_bound; lia |].
    destruct G as [k Hk].
    { rewrite Z.gcd_mod by lia. rewrite Z.gcd_comm. exact Hg. }
    rewrite Z.mul_mod_idemp_r by lia.
    replace (v * a') with (1 + k * m) by lia.
    rewrite Z.mod_add by lia. apply Z.mod_small. lia.
Qed.

Lemma main_inverse_modulo_loop_stops (a b low high : Z) (fuel : nat) :
  low <= 1 -> main.inverse_modulo_loop (S fuel) a b low high = Ok a.
Proof.
  intros H. cbn. destruct (Z.gtb_spec low 1); [lia | reflexivity].
Qed.

Lemma main_inverse_modulo_loop_total (fuel : nat) :
  forall a b low high,
    0 <= low < high ->
    Z.log2 low + Z.log2 high < Z.of_nat fuel ->
    exists a', main.inverse_modulo_loop fuel a b low high = Ok a'.
Proof.
  induction fuel as [| fuel IH]; intros a b low high Hr Hf.
  - pose proof (Z.log2_nonneg low). pose proof (Z.log2_nonneg high). lia.
  - cbn [main.inverse_modulo_loop].
    destruct (Z.gtb_spec low 1) as [Hlow | Hlow]; [| eauto].
    assert (Hmod : high - low * (high / low) = high mod low)
      by (rewrite Z.mod_eq; lia).
    rewrite Hmod.
    pose proof (Z.mod_pos_bound high low ltac:(lia)) as Hb'.
    pose proof (log2_mod_lt low high ltac:(lia)) as Hlog.
    apply IH; lia.
Qed.

(** [inverse_modulo] raises for [value == 0] and for nothing else. *)
Lemma main_inverse_modulo_raises (v m : Z) :
  m <> 0 ->
  (main.inverse_modulo v m = Raise ValueError <-> v = 0) /\
  (v <> 0 -> exists w, main.inverse_modulo v m = Ok w).
Proof.
  intros Hm. unfold main.inverse_modulo.
  destruct (Z.eqb_spec v 0) as [-> | Hv].
  { split; [tauto | congruence]. }
  destruct (Z.eqb_spec m 0) as [-> | _]; [congruence |].
  assert (E : exists a', main.inverse_modulo_loop (euclid_fuel m) 1 0
                                                  (v mod m) m = Ok a').
  { destruct (Z_lt_le_dec 0 m) as [Hpos | Hneg].
    - apply main_inverse_modulo_loop_total.
      + apply Z.mod_pos_bound; lia.
      + apply euclid_fuel_enough. apply Z.mod_pos_bound; lia.
    - unfold euclid_fuel. eexists.
      apply main_inverse_modulo_loop_stops.
      pose proof (Z.mod_neg_bound v m ltac:(lia)). lia. }
  destruct E as [a' E]. rewrite E. cbn [bind].
  split; [split; [discriminate | tauto] | eauto].
Qed.

Lemma main1_extended_gcd_S (fuel : nat) (a b : Z) :
  main1.extended_gcd (S fuel) a b =
  if a =? 0 then Ok (b, 0, 1)
  else
    r <- main1.extended_gcd fuel (b mod a) a ;;
    let '(gcd, x1, y1) := r in
    Ok (gcd, y1 - (b / a) * x1, x1).
Proof. reflexivity. Qed.

Lemma main1_extended_gcd_lt (fuel : nat) :
  forall a b,
    0 <= a < b ->
    Z.log2 a + Z.log2 b + 1 < Z.of_nat fuel ->
    exists x y,
      main1.extended_gcd fuel a b = Ok (Z.gcd a b, x, y) /\
      a * x + b * y = Z.gcd a b.
Proof.
  induction fuel as [| fuel IH]; intros a b Hr Hf.
  - pose proof (Z.log2_nonneg a). pose proof (Z.log2_nonneg b). lia.
  - cbn [main1.extended_gcd].
    destruct (Z.eqb_spec a 0) as [-> | Ha].
    + exists 0, 1. rewrite Z.gcd_0_l, Z.abs_eq by lia.
      split; [reflexivity | ring].
    + pose proof (Z.mod_pos_bound b a ltac:(lia)) as Hm.
      pose proof (log2_mod_lt a b ltac:(lia)) as Hlog.
      destruct (IH (b mod a) a) as (x1 & y1 & E & B); try lia.
      rewrite E. cbn [bind].
      rewrite Z.gcd_mod in * by lia.
      exists (y1 - b / a * x1), x1. split; [reflexivity |].
      rewrite <- B. rewrite (Z.mod_eq b a) by lia. ring.
Qed.

Lemma main1_extended_gcd_spec (a b : Z) :
  0 <= a -> 0 <= b ->
  exists x y,
    main1.extended_gcd (main1.gcd_fuel a b) a b = Ok (Z.gcd a b, x, y) /\
    a * x + b * y = Z.gcd a b.
Proof.
  intros Ha Hb. unfold main1.gcd_fuel.
  rewrite !Z.abs_eq by lia.
  pose proof (Z.log2_nonneg a). pose proof (Z.log2_nonneg b).
  destruct (Z_lt_le_dec a b) as [Hlt | Hge].
  - apply main1_extended_gcd_lt; lia.
  - rewrite main1_extended_gcd_S.
    destruct (Z.eqb_spec a 0) as [-> | Hnz].
    + exists 0, 1. rewrite Z.gcd_0_l, Z.abs_eq by lia.
      split; [reflexivity | ring].
    + pose proof (Z.mod_pos_bound b a ltac:(lia)) as Hm.
      assert (Z.log2 (b mod a) <= Z.log2 b).
      { apply Z.log2_le_mono. apply Z.mod_le; lia. }
      destruct (main1_extended_gcd_lt
                  (S (S (Z.to_nat (Z.log2 a + Z.log2 b)))) (b mod a) a)
        as (x1 & y1 & E & B); try lia.
      rewrite E. cbn [bind].
      rewrite Z.gcd_mod in * by lia.
      exists (y1 - b / a * x1), x1. split; [reflexivity |].
      rewrite <- B. rewrite (Z.mod_eq b a) by lia. ring.
Qed.

Lemma main1_mod_inverse_coprime (v m : Z) :
  1 < m -> 0 <= v -> Z.gcd v m = 1 ->
  exists w, main1.mod_inverse v m = Ok w /\ 0 <= w < m /\ (v * w) mod m = 1.
Proof.
  intros Hm Hv Hg. unfold main1.mod_inverse.
  destruct (main1_extended_gcd_spec v m) as (x & y & E & B); try lia.
  rewrite E. cbn [bind]. rewrite Hg in *. cbn [Z.eqb Pos.eqb negb].
  destruct (Z.eqb_spec m 0) as [-> | _]; [lia |].
  exists ((x mod m + m) mod m). split; [reflexivity |].
  split; [apply Z.mod_pos_bound; lia |].
  rewrite Z.mul_mod_idemp_r by lia.
  replace (v * (x mod m + m)) with (v * (x mod m) + v * m) by ring.
  rewrite Z.mod_add by lia.
  rewrite Z.mul_mod_idemp_r by lia.
  replace (v * x) with (1 + (- y) * m) by lia.
  rewrite Z.mod_add by lia. apply Z.mod_small. lia.
Qed.

Lemma main1_mod_inverse_not_coprime (v m : Z) :
  0 <= v -> 0 <= m -> Z.gcd v m <> 1 ->
  main1.mod_inverse v m = Raise ValueError.
Proof.
  intros Hv Hm Hg. unfold main1.mod_inverse.
  destruct (main1_extended_gcd_spec v m) as (x & y & E & B); try lia.
  rewrite E. cbn [bind].
  destruct (Z.eqb_spec (Z.gcd v m) 1); [contradiction | reflexivity].
Qed.

(** ** Scalar multiplication at the identity *)

Lemma bits_fuel_enough (k : Z) : enough_bits (bits_fuel k) k.
Proof.
  unfold bits_fuel, enough_bits. pose proof (Z.log2_nonneg k). lia.
Qed.

Lemma log2_shiftr_1 (k : Z) :
  2 <= k -> Z.log2 (Z.shiftr k 1) = Z.log2 k - 1.
Proof.
  intros H. rewrite Z.log2_shiftr by lia.
  assert (1 <= Z.log2 k) by (apply Z.log2_le_pow2; simpl; lia).
  lia.
Qed.

Lemma enough_bits_shiftr (fuel : nat) (k : Z) :
  0 < k -> enough_bits (S fuel) k -> enough_bits fuel (Z.shiftr k 1).
Proof.
  intros Hk [_ H]. specialize (H Hk). unfold enough_bits.
  destruct (Z.eq_dec k 1) as [-> | Hne].
  - change (Z.shiftr 1 1) with 0. change (Z.log2 1) with 0 in H. lia.
  - rewrite log2_shiftr_1 by lia.
    assert (1 <= Z.log2 k) by (apply Z.log2_le_pow2; simpl; lia).
    lia.
Qed.

Section MainIdentity.

Variables PRIME COEFF_A : Z.

Lemma main_multiply_point_loop_None (fuel : nat) :
  forall factor,
    enough_bits fuel factor ->
    main.multiply_point_loop PRIME COEFF_A fuel factor None None = Ok None.
Proof.
  induction fuel as [| fuel IH]; intros factor Hf.
  - destruct Hf. lia.
  - cbn [main.multiply_point_loop].
    destruct (Z.gtb_spec factor 0) as [Hpos | Hle]; [| reflexivity].
    pose proof (enough_bits_shiftr fuel factor Hpos Hf) as Hs.
    destruct (negb _); cbn [bind main.curve_point_sum]; apply IH, Hs.
Qed.

Lemma main_multiply_point_zero (P : point) :
  main.multiply_point PRIME COEFF_A 0 P = Ok None.
Proof. reflexivity. Qed.

Lemma main_multiply_point_None (factor : Z) :
  main.multiply_point PRIME COEFF_A factor None = Ok None.
Proof.
  unfold main.multiply_point.
  apply main_multiply_point_loop_None, bits_fuel_enough.
Qed.

End MainIdentity.

Section V3Identity.

Variables p a q : Z.

Lemma main_v3_point_mult_zero (P : point) :
  main_v3.point_mult p a q 0 P = Ok None.
Proof. reflexivity. Qed.

Lemma main_v3_point_mult_None (k : Z) :
  main_v3.point_mult p a q k None = Ok None.
Proof. unfold main_v3.point_mult. now rewrite orb_true_r. Qed.

Lemma main_v3_point_mult_multiple (k : Z) (P : point) :
  k mod q = 0 -> main_v3.point_mult p a q k P = Ok None.
Proof.
  intros H. unfold main_v3.point_mult.
  destruct (_ || _); [reflexivity |].
  rewrite H. reflexivity.
Qed.

End V3Identity.

(** ** main_v6.py: the signature is read modulo [n] only *)

Lemma main_v6_verify_signature_shift (p a n xG yG digest : Z) (Q : point)
      (r s : Z) :
  main_v6.verify_signature p a n xG yG digest Q r (s + n) =
  main_v6.verify_signature p a n xG yG digest Q r s.
Proof.
  unfold main_v6.verify_signature.
  destruct (main_v6.inverse_mod _ n) as [[v |] | e |]; cbn [bind]; try reflexivity.
  replace ((s + n) * v) with (s * v + v * n) by ring.
  destruct (Z.eq_dec n 0) as [-> | Hn].
  - now rewrite Z.mul_0_r, Z.add_0_r.
  - now rewrite Z.mod_add by exact Hn.
Qed.

(** ** The signing loop of main.py *)

Section MainSigning.

Variables PRIME COEFF_A ORDER : Z.
Variable START_POINT : Z * Z.
Variable randbelow : nat -> Z.

Let attempt (hash_val secret_key : Z) (i : nat) : res (option (Z * Z)) :=
  main.signature_attempt PRIME COEFF_A ORDER START_POINT hash_val secret_key
                         (randbelow i + 1).

Let loop := main.generate_signature_loop PRIME COEFF_A ORDER START_POINT
                                         randbelow.

(** The loop stops at the first draw that passes the three tests. *)
Lemma main_generate_signature_loop_first (hash_val secret_key : Z)
      (sig : Z * Z) (i : nat) :
  forall fuel calls,
    (forall j, (j < i)%nat -> attempt hash_val secret_key (calls + j) = Ok None) ->
    attempt hash_val secret_key (calls + i) = Ok (Some sig) ->
    (i < fuel)%nat ->
    loop fuel hash_val secret_key calls = Ok (sig, S (calls + i)).
Proof.
  induction i as [| i IH]; intros fuel calls Hbad Hgood Hfuel;
    (destruct fuel as [| fuel]; [lia |]);
    unfold loop; cbn [main.generate_signature_loop].
  - rewrite Nat.add_0_r in Hgood. unfold attempt in Hgood.
    rewrite Hgood. cbn [bind]. now rewrite Nat.add_0_r.
  - pose proof (Hbad 0%nat ltac:(lia)) as H0.
    rewrite Nat.add_0_r in H0. unfold attempt in H0.
    rewrite H0. cbn [bind].
    replace (S (calls + S i)) with (S (S calls + i)) by lia.
    apply IH.
    + intros j Hj. replace (S calls + j)%nat with (calls + S j)%nat by lia.
      apply Hbad. lia.
    + replace (S calls + i)%nat with (calls + S i)%nat by lia. exact Hgood.
    + lia.
Qed.

(** When no draw passes, no number of turns ends the loop, and nothing is
    raised. *)
Lemma main_generate_signature_loop_never (hash_val secret_key : Z) :
  forall fuel calls,
    (forall j, attempt hash_val secret_key (calls + j) = Ok None) ->
    loop fuel hash_val secret_key calls = OutOfFuel.
Proof.
  induction fuel as [| fuel IH]; intros calls Hbad; [reflexivity |].
  unfold loop. cbn [main.generate_signature_loop].
  pose proof (Hbad 0%nat) as H0.
  rewrite Nat.add_0_r in H0. unfold attempt in H0.
  rewrite H0. cbn [bind].
  apply IH. intros j.
  replace (S calls + j)%nat with (calls + S j)%nat by lia. apply Hbad.
Qed.

End MainSigning.

Lemma main_attempt_rejected :
  main.signature_attempt main.PRIME main.COEFF_A main.ORDER main.START_POINT
                         1 (main.ORDER - 1) 1 = Ok None.
Proof. vm_compute. reflexivity. Qed.

Lemma main_attempt_accepted :
  main.signature_attempt main.PRIME main.COEFF_A main.ORDER main.START_POINT
                         1 1 1 = Ok (Some (1, 2)).
Proof. vm_compute. reflexivity. Qed.

(** ** Key generation *)

Section V6KeyGeneration.

Variables p a xG yG : Z.
Variable randint : nat -> Z.

Let keys := main_v6.generate_keys p a xG yG randint.
Let mul (d : Z) := main_v6.multiply_point p a (Some (xG, yG)) d.

(** [generate_keys] draws again for as long as the public point is
    [None], and returns the first pair whose point is not. *)
Lemma main_v6_generate_keys_first (Q : Z * Z) (i : nat) :
  forall fuel calls,
    (forall j, (j < i)%nat -> mul (randint (calls + j)) = Ok None) ->
    mul (randint (calls + i)) = Ok (Some Q) ->
    (i < fuel)%nat ->
    keys fuel calls = Ok (randint (calls + i), Q, S (calls + i)).
Proof.
  induction i as [| i IH]; intros fuel calls Hbad Hgood Hfuel;
    (destruct fuel as [| fuel]; [lia |]);
    unfold keys; cbn [main_v6.generate_keys].
  - rewrite Nat.add_0_r in *. unfold mul in Hgood.
    rewrite Hgood. reflexivity.
  - pose proof (Hbad 0%nat ltac:(lia)) as H0.
    rewrite Nat.add_0_r in H0. unfold mul in H0.
    rewrite H0. cbn [bind].
    replace (calls + S i)%nat with (S calls + i)%nat by lia.
    apply IH.
    + intros j Hj. replace (S calls + j)%nat with (calls + S j)%nat by lia.
      apply Hbad. lia.
    + replace (S calls + i)%nat with (calls + S i)%nat by lia. exact Hgood.
    + lia.
Qed.

End V6KeyGeneration.

Lemma main_create_keypair_unchecked (PRIME COEFF_A : Z) (START_POINT : Z * Z)
      (randbelow : nat -> Z) (calls : nat) (open_key : point) :
  main.multiply_point PRIME COEFF_A (randbelow calls + 1) (Some START_POINT)
  = Ok open_key ->
  main.create_keypair PRIME COEFF_A START_POINT randbelow calls
  = Ok (randbelow calls + 1, open_key, S calls).
Proof. intros H. unfold main.create_keypair. now rewrite H. Qed.

(** ** The digest *)

Lemma digest_value_range (q e : Z) : 1 < q -> 1 <= digest_value q e < q.
Proof.
  intros Hq. unfold digest_value.
  pose proof (Z.mod_pos_bound e q ltac:(lia)).
  destruct (Z.eqb_spec (e mod q) 0); lia.
Qed.

Lemma digest_value_idem (q e : Z) :
  1 < q -> digest_value q (digest_value q e) = digest_value q e.
Proof.
  intros Hq. pose proof (digest_value_range q e Hq) as H.
  unfold digest_value at 1. rewrite Z.mod_small by lia.
  destruct (Z.eqb_spec (digest_value q e) 0); [lia | reflexivity].
Qed.

Section MainDigest.

Variables PRIME COEFF_A ORDER : Z.
Variable START_POINT : Z * Z.
Variable randbelow : nat -> Z.

Lemma main_generate_signature_digest (fuel : nat) (secret_key digest : Z)
      (calls : nat) :
  main.generate_signature PRIME COEFF_A ORDER START_POINT randbelow
                          fuel secret_key digest calls
  = main.generate_signature_loop PRIME COEFF_A ORDER START_POINT randbelow
                                 fuel (digest_value ORDER digest)
                                 secret_key calls.
Proof. reflexivity. Qed.

Lemma main_generate_signature_same_digest (fuel : nat)
      (secret_key e1 e2 : Z) (calls : nat) :
  digest_value ORDER e1 = digest_value ORDER e2 ->
  main.generate_signature PRIME COEFF_A ORDER START_POINT randbelow
                          fuel secret_key e1 calls
  = main.generate_signature PRIME COEFF_A ORDER START_POINT randbelow
                            fuel secret_key e2 calls.
Proof. intros H. rewrite !main_generate_signature_digest. now rewrite H. Qed.

Lemma main_check_signature_same_digest (e1 e2 : Z) (signature : Z * Z)
      (open_key : point) :
  digest_value ORDER e1 = digest_value ORDER e2 ->
  main.check_signature PRIME COEFF_A ORDER START_POINT e1 signature open_key
  = main.check_signature PRIME COEFF_A ORDER START_POINT e2 signature open_key.
Proof.
  intros H. unfold main.check_signature. destruct signature as [r_val s_val].
  cbv zeta.
  change (if e1 mod ORDER =? 0 then 1 else e1 mod ORDER)
    with (digest_value ORDER e1).
  change (if e2 mod ORDER =? 0 then 1 else e2 mod ORDER)
    with (digest_value ORDER e2).
  now rewrite H.
Qed.

End MainDigest.

Lemma digest_value_zero (q e : Z) :
  1 < q -> e mod q = 0 -> digest_value q e = digest_value q 1.
Proof.
  intros Hq H. unfold digest_value. rewrite H.
  rewrite (Z.mod_small 1 q) by lia. reflexivity.
Qed.

Lemma main_v5_sign_file_reduces (randbelow : nat -> Z) (fuel : nat)
      (digest d : Z) (calls : nat) :
  main_v5.sign_file randbelow fuel digest d calls
  = main_v5.sign_file_loop randbelow fuel (digest mod main_v5.q) d calls.
Proof. reflexivity. Qed.

(** ** Verification: the range test *)

(** [check_signature] of main.py answers [False], raising nothing, for a
    pair with a component outside [1, ORDER). *)
Lemma main_check_signature_range (PRIME COEFF_A ORDER : Z)
      (START_POINT : Z * Z) (digest r s : Z) (open_key : point) :
  ~ (1 <= r < ORDER /\ 1 <= s < ORDER) ->
  main.check_signature PRIME COEFF_A ORDER START_POINT digest (r, s) open_key
  = Ok false.
Proof.
  intros H. unfold main.check_signature.
  destruct (Z.leb_spec 1 r), (Z.ltb_spec r ORDER), (Z.leb_spec 1 s),
           (Z.ltb_spec s ORDER); cbn [andb negb]; try reflexivity.
  exfalso. apply H. lia.
Qed.

(** [verify_signature] of main_v6.py answers [False] when the digest has no
    inverse modulo [n]. *)
Lemma main_v6_verify_signature_no_inverse (p a n xG yG digest : Z)
      (Q : point) (r s : Z) :
  main_v6.inverse_mod (main_v6.hash_file n digest) n = Ok None ->
  main_v6.verify_signature p a n xG yG digest Q r s = Ok false.
Proof. intros H. unfold main_v6.verify_signature. now rewrite H. Qed.

(** C2.  The specification has verification answer false, and raise
    nothing, for every pair with [r] or [s] outside [1, q).
    [check_signature] of main.py does ([main_check_signature_range]);
    [verify_signature] of main_v6.py has no range test: with the curve
    constants of main_v6.py it accepts the pair [(3, 0)] for the digest
    [n - 3] and the public point [(3, 5)], and for the digest [1], the
    public point [(1, 0)] and the pair [(n - 2, 0)] it raises
    [TypeError]. *)
Theorem main_v6_verify_signature_out_of_range :
  ~ (1 <= 0 < main_v6.n) /\
  main_v6.verify_signature main_v6.p main_v6.a main_v6.n main_v6.xG
                           main_v6.yG (main_v6.n - 3) (Some (3, 5)) 3 0
  = Ok true /\
  main_v6.verify_signature main_v6.p main_v6.a main_v6.n main_v6.xG
                           main_v6.yG 1 (Some (1, 0)) (main_v6.n - 2) 0
  = Raise TypeError.
Proof.
  split; [lia |]. split; vm_compute; reflexivity.
Qed.

(** ** The inverse routines *)

(** C3, counterexample.  [inverse_modulo 7 7] returns [1] although 7 is
    congruent to 0 modulo 7, and [inverse_modulo 2 4] returns [2] although
    [gcd 2 4 = 2]; [mod_inverse (-1) 5] of main1.py raises although
    [gcd (-1) 5 = 1]. *)
Lemma modular_inverse_counterexample :
  (7 mod 7 = 0 /\ Z.gcd 7 7 <> 1 /\ main.inverse_modulo 7 7 = Ok 1) /\
  (Z.gcd 2 4 <> 1 /\ main.inverse_modulo 2 4 = Ok 2) /\
  (Z.gcd (-1) 5 = 1 /\ main1.mod_inverse (-1) 5 = Raise ValueError).
Proof. repeat split; try reflexivity; discriminate. Qed.

(** C3, amended.  For a modulus [m > 1] and [v] coprime to [m],
    [inverse_modulo] of main.py returns [w] in [0, m) with
    [(v * w) mod m = 1], and so does [mod_inverse] of main1.py when
    [v >= 0].  For [v >= 0] not coprime to [m], [mod_inverse] raises
    [ValueError].  [inverse_modulo] raises [ValueError] exactly when
    [v = 0], and returns a value for every other [v]. *)
Theorem modular_inverse_spec (v m : Z) :
  1 < m ->
  (Z.gcd v m = 1 ->
   exists w, main.inverse_modulo v m = Ok w /\ 0 <= w < m /\
             (v * w) mod m = 1) /\
  (0 <= v -> Z.gcd v m = 1 ->
   exists w, main1.mod_inverse v m = Ok w /\ 0 <= w < m /\
             (v * w) mod m = 1) /\
  (0 <= v -> Z.gcd v m <> 1 -> main1.mod_inverse v m = Raise ValueError) /\
  (main.inverse_modulo v m = Raise ValueError <-> v = 0) /\
  (v <> 0 -> exists w, main.inverse_modulo v m = Ok w).
Proof.
  intros Hm.
  pose proof (main_inverse_modulo_raises v m ltac:(lia)) as [R1 R2].
  repeat split.
  - now apply main_inverse_modulo_coprime.
  - intros. now apply main1_mod_inverse_coprime.
  - intros. apply main1_mod_inverse_not_coprime; auto; lia.
  - apply R1.
  - apply R1.
  - exact R2.
Qed.

Lemma modular_inverse_spec_witness :
  1 < 7 /\
  (exists w, main.inverse_modulo 3 7 = Ok w /\ 0 <= w < 7 /\
             (3 * w) mod 7 = 1) /\
  (exists w, main1.mod_inverse 3 7 = Ok w /\ 0 <= w < 7 /\
             (3 * w) mod 7 = 1) /\
  main1.mod_inverse 2 4 = Raise ValueError.
Proof.
  split; [lia |]. split; [| split].
  - apply (proj1 (modular_inverse_spec 3 7 ltac:(lia))). reflexivity.
  - apply (proj1 (proj2 (modular_inverse_spec 3 7 ltac:(lia)))).
    + lia.
    + reflexivity.
  - apply (proj1 (proj2 (proj2 (modular_inverse_spec 2 4 ltac:(lia))))).
    + lia.
    + discriminate.
Defined.

(** ** The configured parameter sets *)

Lemma main1_point_mult_order (p a q : Z) (P : point) :
  main1.point_mult p a q q P = Ok None.
Proof.
  unfold main1.point_mult.
  assert (E : q mod q = 0).
  { destruct (Z.eq_dec q 0) as [-> | H]; [reflexivity | now apply Z.mod_same]. }
  rewrite E. reflexivity.
Qed.

(** C4.  The specification has every configured base point satisfy the
    curve equation.  Evaluating [is_on_curve] on the five configured
    parameter sets: the base points of main.py and main1.py are on their
    curves; those of main_v2.py (the set shared with main_v3.py and
    main_v4.py), main_v5.py and main_v6.py are not. *)
Theorem configured_base_points :
  main1.is_on_curve main.PRIME main.COEFF_A main.COEFF_B
                    main.BASE_X main.BASE_Y = true /\
  main1.is_on_curve main1.p main1.a main1.b (fst main1.G) (snd main1.G)
  = true /\
  main1.is_on_curve main_v2.p main_v2.a main_v2.b
                    (fst main_v2.G) (snd main_v2.G) = false /\
  main1.is_on_curve main_v5.p main_v5.a main_v5.b
                    (fst main_v5.G) (snd main_v5.G) = false /\
  main1.is_on_curve main_v6.p main_v6.a main_v6.b main_v6.xG main_v6.yG
  = false.
Proof. repeat split; vm_compute; reflexivity. Qed.

(** ** The digest in signing and verification *)

(** C5, counterexample.  [sign_file] of main_v5.py uses the digest 0 as it
    is: with the private key 1 and the nonce 1 it signs the digest 0 as
    [(1, 1)] and the digest 1 as [(1, 2)]; a zero digest mapped to one would
    give the same pair. *)
Lemma main_v5_digest_not_remapped :
  main_v5.sign_file (fun _ => 0) 1 0 1 0 = Ok (1, 1, 1%nat) /\
  main_v5.sign_file (fun _ => 0) 1 1 1 0 = Ok (1, 2, 1%nat) /\
  main_v5.sign_file (fun _ => 0) 1 0 1 0
  <> main_v5.sign_file (fun _ => 0) 1 1 1 0.
Proof.
  assert (E0 : main_v5.sign_file (fun _ => 0) 1 0 1 0 = Ok (1, 1, 1%nat))
    by (vm_compute; reflexivity).
  assert (E1 : main_v5.sign_file (fun _ => 0) 1 1 1 0 = Ok (1, 2, 1%nat))
    by (vm_compute; reflexivity).
  rewrite E0, E1. repeat split. discriminate.
Qed.

(** C5, amended.  In main.py both [generate_signature] and
    [check_signature] use the digest reduced modulo [ORDER] with zero
    mapped to one, a value of [1, ORDER): a digest that is a multiple of
    [ORDER] is signed and verified as the digest 1.  In main_v5.py
    [sign_file] uses the digest reduced modulo [q], without mapping zero to
    one. *)
Theorem digest_remap_main (PRIME COEFF_A ORDER : Z) (START_POINT : Z * Z)
        (randbelow : nat -> Z) (digest : Z) :
  1 < ORDER ->
  1 <= digest_value ORDER digest < ORDER /\
  (forall fuel secret_key calls,
      main.generate_signature PRIME COEFF_A ORDER START_POINT randbelow
                              fuel secret_key digest calls
      = main.generate_signature_loop PRIME COEFF_A ORDER START_POINT
                                     randbelow fuel
                                     (digest_value ORDER digest)
                                     secret_key calls) /\
  (forall signature open_key,
      main.check_signature PRIME COEFF_A ORDER START_POINT
                           digest signature open_key
      = main.check_signature PRIME COEFF_A ORDER START_POINT
                             (digest_value ORDER digest) signature open_key) /\
  (digest mod ORDER = 0 ->
   (forall fuel secret_key calls,
       main.generate_signature PRIME COEFF_A ORDER START_POINT randbelow
                               fuel secret_key digest calls
       = main.generate_signature PRIME COEFF_A ORDER START_POINT randbelow
                                 fuel secret_key 1 calls) /\
   (forall signature open_key,
       main.check_signature PRIME COEFF_A ORDER START_POINT
                            digest signature open_key
       = main.check_signature PRIME COEFF_A ORDER START_POINT
                              1 signature open_key)) /\
  (forall fuel d calls,
      main_v5.sign_file randbelow fuel digest d calls
      = main_v5.sign_file_loop randbelow fuel (digest mod main_v5.q) d calls).
Proof.
  intros Hq. split; [now apply digest_value_range |].
  split; [intros; apply main_generate_signature_digest |].
  split.
  { intros. apply main_check_signature_same_digest.
    symmetry. now apply digest_value_idem. }
  split; [| intros; apply main_v5_sign_file_reduces].
  intros H0. split; intros.
  - apply main_generate_signature_same_digest. now apply digest_value_zero.
  - apply main_check_signature_same_digest. now apply digest_value_zero.
Qed.

Lemma digest_remap_main_witness :
  1 < main.ORDER /\
  (2 * main.ORDER) mod main.ORDER = 0 /\
  main.check_signature main.PRIME main.COEFF_A main.ORDER main.START_POINT
                       (2 * main.ORDER) (1, 0) None
  = main.check_signature main.PRIME main.COEFF_A main.ORDER main.START_POINT
                         1 (1, 0) None.
Proof.
  assert (H1 : 1 < main.ORDER) by reflexivity.
  assert (H2 : (2 * main.ORDER) mod main.ORDER = 0) by reflexivity.
  split; [exact H1 |]. split; [exact H2 |].
  apply (digest_remap_main main.PRIME main.COEFF_A main.ORDER
                           main.START_POINT (fun _ => 0) (2 * main.ORDER) H1).
  exact H2.
Defined.

(** ** Key generation *)

(** C6, counterexample.  On the curve [y^2 = x^3 + 1] over the field of 7
    elements, where the point [(0, 1)] has order 3: [create_keypair] of
    main.py, drawing the key 3, returns the pair [(3, None)] and raises
    nothing; [generate_keys] of main_v6.py, drawing 3 and then 1, finds
    [None] for the first key, draws again and returns the second. *)
Lemma keygen_identity_counterexample :
  main.multiply_point 7 0 3 (Some (0, 1)) = Ok None /\
  main.create_keypair 7 0 (0, 1) (fun _ => 2) 0 = Ok (3, None, 1%nat) /\
  main_v6.multiply_point 7 0 (Some (0, 1)) 3 = Ok None /\
  main_v6.generate_keys 7 0 0 1 (fun i => if Nat.eqb i 0 then 3 else 1) 2 0
  = Ok (1, (0, 1), 2%nat).
Proof. repeat split; vm_compute; reflexivity. Qed.

(** C6, amended.  [create_keypair] of main.py takes one answer [t] of
    [secrets.randbelow(ORDER - 1)], a key [t + 1] of [1, ORDER - 1], and
    returns it with the point [multiply_point (t + 1) START_POINT] whatever
    that point is, [None] included.  [generate_keys] of main_v6.py draws
    keys until the point is not [None] and returns the first such pair.
    Neither reports an error for a public point that is the identity. *)
Theorem keygen_behaviour :
  (forall PRIME COEFF_A ORDER START_POINT randbelow calls open_key,
      0 <= randbelow calls < ORDER - 1 ->
      main.multiply_point PRIME COEFF_A (randbelow calls + 1)
                          (Some START_POINT) = Ok open_key ->
      1 <= randbelow calls + 1 <= ORDER - 1 /\
      main.create_keypair PRIME COEFF_A START_POINT randbelow calls
      = Ok (randbelow calls + 1, open_key, S calls)) /\
  (forall p a xG yG randint Q i fuel calls,
      (forall j, (j < i)%nat ->
                 main_v6.multiply_point p a (Some (xG, yG))
                                        (randint (calls + j)%nat) = Ok None) ->
      main_v6.multiply_point p a (Some (xG, yG)) (randint (calls + i)%nat)
      = Ok (Some Q) ->
      (i < fuel)%nat ->
      main_v6.generate_keys p a xG yG randint fuel calls
      = Ok (randint (calls + i)%nat, Q, S (calls + i))).
Proof.
  split.
  - intros. split; [lia |]. now apply main_create_keypair_unchecked.
  - intros. now apply main_v6_generate_keys_first.
Qed.

Lemma keygen_behaviour_witness :
  main.create_keypair 7 0 (0, 1) (fun _ => 2) 0 = Ok (3, None, 1%nat) /\
  main_v6.generate_keys 7 0 0 1 (fun i => if Nat.eqb i 0 then 3 else 1) 2 0
  = Ok (1, (0, 1), 2%nat).
Proof.
  split.
  - apply (proj1 keygen_behaviour 7 0 5 (0, 1) (fun _ => 2) 0%nat None).
    + cbv beta. lia.
    + reflexivity.
  - apply (proj2 keygen_behaviour 7 0 0 1
                 (fun i => if Nat.eqb i 0 then 3 else 1) (0, 1) 1%nat 2%nat
                 0%nat).
    + intros j Hj. assert (j = 0%nat) as -> by lia. reflexivity.
    + reflexivity.
    + lia.
Defined.

(** ** The signing loop has no bound *)

(** C8, counterexample.  With the constants of main.py, the private key
    [ORDER - 1], the digest 1 and a generator that answers 0 at every call
    (the nonce 1, for which [r = 1] and [s = 0]), no number of turns ends
    the loop of [generate_signature]: it neither returns nor raises. *)
Lemma main_signing_never_ends :
  ~ exists fuel,
      main.generate_signature main.PRIME main.COEFF_A main.ORDER
                              main.START_POINT (fun _ => 0)
                              fuel (main.ORDER - 1) 1 0 <> OutOfFuel.
Proof.
  intros [fuel H]. apply H. unfold main.generate_signature.
  change (let hash_val := 1 mod main.ORDER in
          if hash_val =? 0 then 1 else hash_val) with 1.
  apply main_generate_signature_loop_never.
  intros j. exact main_attempt_rejected.
Qed.

(** C8, amended.  The loop of [generate_signature] has no iteration cap and
    no error exit: it returns the signature of the first nonce drawn for
    which the point is not the identity and [r] and [s] are not zero, after
    as many draws as that takes, and it does not end when no drawn nonce
    passes the three tests. *)
Theorem signing_loop_first_accepted (PRIME COEFF_A ORDER : Z)
        (START_POINT : Z * Z) (randbelow : nat -> Z)
        (secret_key digest : Z) (calls : nat) :
  (forall i sig fuel,
      (forall j, (j < i)%nat ->
                 main.signature_attempt PRIME COEFF_A ORDER START_POINT
                                        (digest_value ORDER digest) secret_key
                                        (randbelow (calls + j)%nat + 1)
                 = Ok None) ->
      main.signature_attempt PRIME COEFF_A ORDER START_POINT
                             (digest_value ORDER digest) secret_key
                             (randbelow (calls + i)%nat + 1)
      = Ok (Some sig) ->
      (i < fuel)%nat ->
      main.generate_signature PRIME COEFF_A ORDER START_POINT randbelow
                              fuel secret_key digest calls
      = Ok (sig, S (calls + i))) /\
  ((forall j,
       main.signature_attempt PRIME COEFF_A ORDER START_POINT
                              (digest_value ORDER digest) secret_key
                              (randbelow (calls + j)%nat + 1)
       = Ok None) ->
   forall fuel,
     main.generate_signature PRIME COEFF_A ORDER START_POINT randbelow
                             fuel secret_key digest calls
     = OutOfFuel).
Proof.
  split.
  - intros i sig fuel Hbad Hgood Hfuel.
    rewrite main_generate_signature_digest.
    now apply main_generate_signature_loop_first.
  - intros Hbad fuel.
    rewrite main_generate_signature_digest.
    now apply main_generate_signature_loop_never.
Qed.

Lemma signing_loop_first_accepted_witness :
  main.generate_signature main.PRIME main.COEFF_A main.ORDER
                          main.START_POINT (fun _ => 0) 1 1 1 0
  = Ok ((1, 2), 1%nat).
Proof.
  apply (proj1 (signing_loop_first_accepted
                  main.PRIME main.COEFF_A main.ORDER main.START_POINT
                  (fun _ => 0) 1 1 0%nat) 0%nat (1, 2) 1%nat).
  - intros j Hj. lia.
  - exact main_attempt_accepted.
  - lia.
Defined.

(** ** Point addition of main_v6.py *)

(** C9.  [add_points] of main_v6.py passes [x_q - x_p] to [inverse_mod]
    without reducing it; for a negative argument [extended_gcd] returns a
    negative gcd, [inverse_mod] answers [None] and [add_points] answers
    the identity.  With the constants of main_v6.py the sum of [(1, 1)] and
    [(0, 1)] is [None] while the sum of [(0, 1)] and [(1, 1)] is a point. *)
Theorem main_v6_add_points_not_commutative :
  main_v6.inverse_mod (-1) main_v6.p = Ok None /\
  main_v6.add_points main_v6.p main_v6.a (Some (1, 1)) (Some (0, 1))
  = Ok None /\
  main_v6.add_points main_v6.p main_v6.a (Some (0, 1)) (Some (1, 1))
  = Ok (Some (main_v6.p - 1, main_v6.p - 1)).
Proof. repeat split; vm_compute; reflexivity. Qed.

(** ** Verification of main_v6.py reads [s] modulo [n] *)

(** C10.  [verify_signature] of main_v6.py gives the same answer for
    [(r, s)] and [(r, s + n)]; so with every accepted pair [(r, s)] the
    pair [(r, s + n)] is accepted too, and for [s >= 0], which covers the
    range [1, n) of a signature, [s + n] is outside [1, n). *)
Theorem main_v6_verify_signature_mod_n (p a n xG yG digest : Z) (Q : point)
        (r s : Z) :
  main_v6.verify_signature p a n xG yG digest Q r (s + n)
  = main_v6.verify_signature p a n xG yG digest Q r s /\
  (main_v6.verify_signature p a n xG yG digest Q r s = Ok true ->
   main_v6.verify_signature p a n xG yG digest Q r (s + n) = Ok true /\
   (0 <= s -> ~ (1 <= s + n < n))).
Proof.
  pose proof (main_v6_verify_signature_shift p a n xG yG digest Q r s) as E.
  split; [exact E |].
  intros H. split; [now rewrite E | lia].
Qed.

Lemma main_v6_verify_signature_mod_n_witness :
  1 <= main_v6.n - 31 < main_v6.n /\
  main_v6.verify_signature main_v6.p main_v6.a main_v6.n main_v6.xG
                           main_v6.yG (main_v6.n - 31) (Some (3, 5)) 31
                           (main_v6.n - 31) = Ok true /\
  main_v6.verify_signature main_v6.p main_v6.a main_v6.n main_v6.xG
                           main_v6.yG (main_v6.n - 31) (Some (3, 5)) 31
                           (main_v6.n - 31 + main_v6.n) = Ok true /\
  ~ (1 <= main_v6.n - 31 + main_v6.n < main_v6.n).
Proof.
  assert (R : 1 <= main_v6.n - 31 < main_v6.n) by (unfold main_v6.n; lia).
  assert (H : main_v6.verify_signature
                main_v6.p main_v6.a main_v6.n main_v6.xG main_v6.yG
                (main_v6.n - 31) (Some (3, 5)) 31 (main_v6.n - 31) = Ok true)
    by (vm_compute; reflexivity).
  split; [exact R |]. split; [exact H |].
  destruct (proj2 (main_v6_verify_signature_mod_n
                     main_v6.p main_v6.a main_v6.n main_v6.xG main_v6.yG
                     (main_v6.n - 31) (Some (3, 5)) 31 (main_v6.n - 31)) H)
    as [A B].
  split; [exact A | apply B; lia].
Defined.

(** ** The group law of main.py

    The addition of [curve_point_sum] on the points of a non-singular curve
    [y^2 = x^3 + a x + b] over a prime field: the sum is total, stays on
    the curve, and is commutative and associative.  The polynomial
    identities are found by [nsatz], run over the integers with congruence
    modulo [p] as equality. *)

Section PrimeField.

Variable p : Z.
Hypothesis p_prime : Z.prime p.

Lemma p_gt_1 : 1 < p.
Proof. destruct p_prime. lia. Qed.

#[export] Instance eqp_Equivalence : Equivalence (eqp p).
Proof. split; unfold eqp; congruence. Qed.

#[export] Instance Fp_ops : @Ring_ops Z 0 1 Z.add Z.mul Z.sub Z.opp (eqp p)
  := {}.

Ltac unfold_ops :=
  cbv [equality eq_notation addition add_notation multiplication
       mul_notation subtraction sub_notation opposite opp_notation
       zero zero_notation one one_notation Proper respectful eqp].

#[export] Instance Fp_ring : @Ring _ _ _ _ _ _ _ _ Fp_ops.
Proof.
  pose proof p_gt_1.
  constructor; try exact eqp_Equivalence; unfold_ops; intros.
  - rewrite (Zplus_mod x), (Zplus_mod y). congruence.
  - rewrite (Zmult_mod x), (Zmult_mod y). congruence.
  - rewrite (Zminus_mod x), (Zminus_mod y). congruence.
  - rewrite <- (Z.sub_0_l x), <- (Z.sub_0_l y),
      (Zminus_mod 0 x), (Zminus_mod 0 y).
    congruence.
  - f_equal; ring.
  - f_equal; ring.
  - f_equal; ring.
  - f_equal; ring.
  - f_equal; ring.
  - f_equal; ring.
  - f_equal; ring.
  - f_equal; ring.
  - f_equal; ring.
  - f_equal; ring.
Qed.

#[export] Instance Fp_cring : Cring (Rr := Fp_ring).
Proof. intros x y. unfold_ops. f_equal. ring. Qed.

Lemma eqp_zero_divide (x : Z) : eqp p x 0 <-> (p | x).
Proof.
  pose proof p_gt_1. unfold eqp. rewrite Z.mod_0_l by lia.
  split; intros H0.
  - apply Z.mod_divide in H0; [exact H0 | lia].
  - apply Z.mod_divide; [lia | exact H0].
Qed.

#[export] Instance Fp_domain : Integral_domain (Rcr := Fp_cring).
Proof.
  constructor.
  - intros x y. unfold_ops. fold (eqp p (x * y) 0) (eqp p x 0) (eqp p y 0).
    rewrite !eqp_zero_divide. intros Hxy.
    now apply Z.divide_prime_mul in Hxy.
  - unfold_ops. pose proof p_gt_1.
    rewrite Z.mod_0_l, Z.mod_1_l by lia. lia.
Qed.

Lemma one_not_zero : ~ eqp p 1 0.
Proof.
  pose proof p_gt_1. unfold eqp.
  rewrite Z.mod_0_l, Z.mod_1_l by lia. lia.
Qed.

Lemma eqp_small (x y : Z) : 0 <= x < p -> 0 <= y < p -> eqp p x y -> x = y.
Proof. unfold eqp. intros Hx Hy. now rewrite !Z.mod_small. Qed.

Lemma eqp_mod (x : Z) : eqp p (x mod p) x.
Proof. unfold eqp. pose proof p_gt_1. apply Z.mod_mod. lia. Qed.

(** *** Constants that are not zero in the field *)

Lemma small_not_divisible (c : Z) : 0 < Z.abs c < p -> ~ (p | c).
Proof.
  intros Hc H. apply Z.divide_abs_r in H. apply Z.divide_pos_le in H; lia.
Qed.

Lemma product_not_divisible (l : list Z) :
  Forall (fun c => 0 < Z.abs c < p) l -> ~ (p | product l).
Proof.
  induction 1 as [| c l Hc Hl IH]; simpl.
  - apply small_not_divisible. pose proof p_gt_1. simpl. lia.
  - intros H. apply Z.divide_prime_mul in H; [| exact p_prime].
    destruct H as [H | H]; [| now apply IH].
    now apply (small_not_divisible c).
Qed.

Lemma constant_not_zero (c : Z) (l : list Z) :
  product l = c -> Forall (fun c => 0 < Z.abs c < p) l -> ~ eqp p c 0.
Proof.
  intros <- Hl H. apply (product_not_divisible l Hl).
  now apply eqp_zero_divide.
Qed.

(** *** The inverse of main.py in the field *)

Lemma main_inverse_modulo_prime (v : Z) :
  ~ eqp p v 0 ->
  exists i, main.inverse_modulo v p = Ok i /\ eqp p (i * v) 1.
Proof.
  intros Hv.
  assert (Hg : Z.gcd v p = 1).
  { rewrite Z.gcd_comm. apply Z.coprime_prime_l; [exact p_prime |].
    intros Hd. apply Hv. now apply eqp_zero_divide. }
  pose proof p_gt_1 as Hp.
  destruct (main_inverse_modulo_coprime v p Hp Hg) as (w & E & _ & Hw).
  exists w. split; [exact E |].
  unfold eqp. rewrite Z.mul_comm, Hw. symmetry. apply Z.mod_1_l. lia.
Qed.

Lemma eqp_difference_small (x y : Z) :
  0 <= x < p -> 0 <= y < p -> eqp p (x - y) 0 -> x = y.
Proof.
  intros Hx Hy H. apply eqp_zero_divide in H.
  destruct (Z.eq_dec x y) as [E | NE]; [exact E | exfalso].
  apply (small_not_divisible (x - y)); [lia | exact H].
Qed.

End PrimeField.

(** Closes a goal [c <> 0] left by [nsatz] for an integer constant [c]
    whose prime factors are smaller than [p]. *)
Ltac constant_tac :=
  match goal with
  | |- ~ (_ (interpret3 (PEc ?c) _) _) =>
      let l := eval vm_compute in (smooth_factors 100 c) in
      apply (constant_not_zero _ _ c l);
      [ vm_compute; reflexivity
      | repeat constructor; simpl; lia ]
  end.

(** Congruences that follow from the congruences of the context. *)
Ltac field_tac :=
  match goal with
  | |- False => eapply one_not_zero; [eassumption | nsatz]
  | |- eqp _ _ _ => nsatz
  end;
  try constant_tac.

Ltac leaf_tac :=
  match goal with
  | |- True => exact I
  | |- _ /\ _ => split; field_tac
  | |- _ => field_tac
  end.

Ltac invert H := inversion H; subst; clear H.

(** *** Identities of the field, by [nsatz] *)

Section GroupLaw.

Variable p : Z.
Hypothesis p_prime : Z.prime p.
Hypothesis p_gt_3 : 3 < p.

Variables a b : Z.
Hypothesis nonsingular : ~ eqp p (4 * a * a * a + 27 * b * b) 0.

Lemma inverse_exists (v : Z) : ~ eqp p v 0 -> exists i, eqp p (i * v) 1.
Proof.
  intros Hv.
  destruct (main_inverse_modulo_prime p p_prime v Hv) as (i & _ & Hi).
  now exists i.
Qed.

(** The sum of two points of the curve is on the curve. *)
Lemma sum_rel_satisfies (P Q R : point) :
  satisfies p a b P -> satisfies p a b Q -> sum_rel p a P Q R ->
  satisfies p a b R.
Proof.
  intros HP HQ H.
  destruct P as [[x1 y1] |], Q as [[x2 y2] |]; simpl in HP, HQ;
    invert H; simpl; auto; leaf_tac.
Qed.

(** The sum is a function of its operands, up to congruence. *)
Lemma sum_rel_functional (P Q R R' : point) :
  satisfies p a b P -> satisfies p a b Q ->
  sum_rel p a P Q R -> sum_rel p a P Q R' -> eqP p R R'.
Proof.
  intros HP HQ H H'.
  destruct P as [[x1 y1] |], Q as [[x2 y2] |]; simpl in HP, HQ;
    invert H; invert H'; simpl; try (split; reflexivity); leaf_tac.
Qed.

Lemma sum_rel_commutative (P Q R R' : point) :
  satisfies p a b P -> satisfies p a b Q ->
  sum_rel p a P Q R -> sum_rel p a Q P R' -> eqP p R R'.
Proof.
  intros HP HQ H H'.
  destruct P as [[x1 y1] |], Q as [[x2 y2] |]; simpl in HP, HQ;
    invert H; invert H'; simpl; try (split; reflexivity); leaf_tac.
Qed.

Section LargePrime.

Hypothesis p_gt_7 : 7 < p.

(** Associativity, in the fields where the constants of the identities
    found by [nsatz], whose prime factors are 2, 3, 5 and 7, are not
    zero. *)
Lemma sum_rel_associative_large (P Q R PQ QR L L' : point) :
  satisfies p a b P -> satisfies p a b Q -> satisfies p a b R ->
  sum_rel p a P Q PQ -> sum_rel p a PQ R L ->
  sum_rel p a Q R QR -> sum_rel p a P QR L' ->
  eqP p L L'.
Proof.
  destruct (inverse_exists _ nonsingular) as [d Hd].
  intros HP HQ HR H1 H2 H3 H4.
  destruct P as [[x1 y1] |], Q as [[x2 y2] |], R as [[x3 y3] |];
    simpl in HP, HQ, HR;
    invert H1; invert H2; invert H3; invert H4; simpl; leaf_tac.
Qed.

End LargePrime.

End GroupLaw.

(** *** [curve_point_sum] on the points of the curve *)

Section CurvePointSum.

Variables p a b : Z.
Hypothesis p_prime : Z.prime p.
Hypothesis p_gt_3 : 3 < p.
Hypothesis nonsingular : ~ eqp p (4 * a * a * a + 27 * b * b) 0.

(** Two points of the curve with the same abscissa are equal or
    opposite. *)
Lemma same_abscissa (x y1 y2 : Z) :
  0 <= y1 < p -> 0 <= y2 < p ->
  eqp p (y1 * y1) (x * x * x + a * x + b) ->
  eqp p (y2 * y2) (x * x * x + a * x + b) ->
  y1 = y2 \/ (y1 + y2) mod p = 0.
Proof.
  intros H1 H2 E1 E2.
  assert (Hd : (p | (y1 - y2) * (y1 + y2))).
  { apply eqp_zero_divide; [exact p_prime |].
    unfold eqp in *. rewrite Z.mod_0_l by lia.
    replace ((y1 - y2) * (y1 + y2)) with (y1 * y1 - y2 * y2) by ring.
    rewrite Zminus_mod, E1, E2, Z.sub_diag. apply Z.mod_0_l. lia. }
  apply Z.divide_prime_mul in Hd; [| exact p_prime].
  destruct Hd as [Hd | Hd].
  - left. apply (eqp_difference_small p p_prime); auto.
    now apply eqp_zero_divide.
  - right. apply Z.mod_divide; [lia | exact Hd].
Qed.

Lemma main_curve_point_sum_spec (P Q : point) :
  on_curve p a b P -> on_curve p a b Q ->
  exists R,
    main.curve_point_sum p a P Q = Ok R /\ on_curve p a b R /\
    sum_rel p a P Q R.
Proof.
  intros HP HQ.
  destruct P as [[x1 y1] |];
    [| exists Q; split; [reflexivity | split; [exact HQ | constructor]]].
  destruct Q as [[x2 y2] |];
    [| exists (Some (x1, y1));
       split; [reflexivity | split; [exact HP | constructor]]].
  destruct HP as (Hx1 & Hy1 & E1), HQ as (Hx2 & Hy2 & E2).
  assert (Hsat : forall R, sum_rel p a (Some (x1, y1)) (Some (x2, y2)) R ->
                           satisfies p a b R).
  { intros R. now apply (sum_rel_satisfies p p_prime p_gt_3 a b). }
  unfold main.curve_point_sum, tuple_eqb. cbn [fst snd].
  destruct (Z.eqb_spec x1 x2) as [Ex | Nx]; cbn [andb].
  - subst x2.
    destruct (Z.eqb_spec ((y1 + y2) mod p) 0) as [Ey | Ny].
    + exists None. split; [reflexivity |]. split; [exact I |].
      apply sum_opposite; [reflexivity |].
      unfold eqp. rewrite Ey. symmetry. apply Z.mod_0_l. lia.
    + destruct (same_abscissa x1 y1 y2 Hy1 Hy2 E1 E2) as [<- | C];
        [| contradiction].
      rewrite Z.eqb_refl.
      destruct (main_inverse_modulo_prime p p_prime (2 * y1)) as (i & Ei & Hi).
      { unfold eqp. rewrite Z.mod_0_l by lia.
        replace (2 * y1) with (y1 + y1) by ring. exact Ny. }
      rewrite Ei. cbn [bind].
      set (g := (3 * x1 * x1 + a) * i mod p).
      set (x3 := (g * g - x1 - x1) mod p).
      set (y3 := (g * (x1 - x3) - y1) mod p).
      assert (S : sum_rel p a (Some (x1, y1)) (Some (x1, y1))
                          (Some (x3, y3))).
      { apply (sum_tangent p a x1 y1 x1 y1 x3 y3 i g);
          try reflexivity; try exact Hi; apply eqp_mod; exact p_prime. }
      exists (Some (x3, y3)). split; [reflexivity |]. split; [| exact S].
      split; [apply Z.mod_pos_bound; lia |].
      split; [apply Z.mod_pos_bound; lia |].
      exact (Hsat _ S).
  - destruct (main_inverse_modulo_prime p p_prime (x2 - x1)) as (i & Ei & Hi).
    { intros H. apply Nx. symmetry.
      now apply (eqp_difference_small p p_prime). }
    rewrite Ei. cbn [bind].
    set (g := (y2 - y1) * i mod p).
    set (x3 := (g * g - x1 - x2) mod p).
    set (y3 := (g * (x1 - x3) - y1) mod p).
    assert (S : sum_rel p a (Some (x1, y1)) (Some (x2, y2)) (Some (x3, y3))).
    { apply (sum_chord p a x1 y1 x2 y2 x3 y3 i g);
        try exact Hi; apply eqp_mod; exact p_prime. }
    exists (Some (x3, y3)). split; [reflexivity |]. split; [| exact S].
    split; [apply Z.mod_pos_bound; lia |].
    split; [apply Z.mod_pos_bound; lia |].
    exact (Hsat _ S).
Qed.

End CurvePointSum.

(** *** Associativity in the fields of 5 and 7 elements, by enumeration *)

Lemma residues_In (p x : Z) : 0 <= x < p -> In x (residues p).
Proof.
  intros H. unfold residues. apply in_map_iff.
  exists (Z.to_nat x). split; [lia |]. apply in_seq. lia.
Qed.

Lemma point_eqb_eq (P Q : point) : point_eqb P Q = true -> P = Q.
Proof.
  destruct P as [[x1 y1] |], Q as [[x2 y2] |]; simpl; try discriminate; auto.
  unfold tuple_eqb. simpl. intros H.
  apply andb_true_iff in H. destruct H as [Hx Hy].
  apply Z.eqb_eq in Hx, Hy. now subst.
Qed.

Lemma on_curveb_true (p a b : Z) (P : point) :
  on_curve p a b P -> on_curveb p a b P = true.
Proof.
  destruct P as [[x y] |]; simpl; [| reflexivity].
  unfold eqp. intros (Hx & Hy & E).
  rewrite E, Z.eqb_refl.
  destruct (Z.leb_spec 0 x), (Z.ltb_spec x p), (Z.leb_spec 0 y),
           (Z.ltb_spec y p); try lia; reflexivity.
Qed.

Lemma curve_points_In (p a b : Z) (P : point) :
  on_curve p a b P -> In P (curve_points p a b).
Proof.
  intros H. unfold curve_points. apply filter_In.
  split; [| now apply on_curveb_true].
  destruct P as [[x y] |]; [right | now left].
  apply in_map, in_prod; apply residues_In; simpl in H; tauto.
Qed.

Section Reduction.

Variable p : Z.
Hypothesis p_prime : Z.prime p.

(** The sum reads the coefficient [a] modulo [p]. *)
Lemma point_sum_mod_a (a : Z) (P Q : point) :
  point_sum p (a mod p) P Q = point_sum p a P Q.
Proof.
  pose proof (p_gt_1 p p_prime) as Hp.
  unfold point_sum, main.curve_point_sum.
  destruct P as [[x1 y1] |], Q as [[x2 y2] |]; try reflexivity.
  destruct (_ && _); [reflexivity |].
  destruct (tuple_eqb _ _); [| reflexivity].
  destruct (main.inverse_modulo (2 * y1) p) as [i | e |]; cbn [bind];
    try reflexivity.
  assert (E : (3 * x1 * x1 + a mod p) * i mod p
              = (3 * x1 * x1 + a) * i mod p).
  { rewrite <- Z.mul_mod_idemp_l, Z.add_mod_idemp_r, Z.mul_mod_idemp_l by lia.
    reflexivity. }
  now rewrite E.
Qed.

Lemma on_curve_mod (a b : Z) (P : point) :
  on_curve p a b P -> on_curve p (a mod p) (b mod p) P.
Proof.
  destruct P as [[x y] |]; [| auto]. simpl. intros (Hx & Hy & E).
  split; [exact Hx |]. split; [exact Hy |].
  pose proof (eqp_mod p p_prime a) as Ha.
  pose proof (eqp_mod p p_prime b) as Hb.
  remember (a mod p) as a'. remember (b mod p) as b'.
  clear Heqa' Heqb'. nsatz.
Qed.

Lemma discriminant_mod (a b : Z) :
  ~ eqp p (4 * a * a * a + 27 * b * b) 0 ->
  (4 * (a mod p) * (a mod p) * (a mod p) + 27 * (b mod p) * (b mod p)) mod p
  <> 0.
Proof.
  intros H E. apply H.
  pose proof (eqp_mod p p_prime a) as Ha.
  pose proof (eqp_mod p p_prime b) as Hb.
  assert (E' : eqp p (4 * (a mod p) * (a mod p) * (a mod p)
                      + 27 * (b mod p) * (b mod p)) 0).
  { unfold eqp. rewrite E. symmetry. apply Z.mod_0_l.
    pose proof (p_gt_1 p p_prime). lia. }
  clear H E. remember (a mod p) as a'. remember (b mod p) as b'.
  clear Heqa' Heqb'. nsatz.
Qed.

Lemma associative_field_sound (a b : Z) (P Q R : point) :
  associative_field p = true ->
  ~ eqp p (4 * a * a * a + 27 * b * b) 0 ->
  on_curve p a b P -> on_curve p a b Q -> on_curve p a b R ->
  point_sum p a (point_sum p a P Q) R = point_sum p a P (point_sum p a Q R).
Proof.
  intros Hall Hns HP HQ HR.
  pose proof (p_gt_1 p p_prime) as Hp.
  pose proof (Z.mod_pos_bound a p ltac:(lia)) as Ba.
  pose proof (Z.mod_pos_bound b p ltac:(lia)) as Bb.
  unfold associative_field in Hall.
  rewrite forallb_forall in Hall.
  specialize (Hall (a mod p) (residues_In p _ Ba)).
  rewrite forallb_forall in Hall.
  specialize (Hall (b mod p) (residues_In p _ Bb)).
  apply orb_true_iff in Hall. destruct Hall as [Hd | Hall].
  { apply Z.eqb_eq in Hd. now apply discriminant_mod in Hns. }
  unfold associative_on in Hall.
  rewrite forallb_forall in Hall.
  specialize (Hall P (curve_points_In p _ _ P (on_curve_mod a b P HP))).
  rewrite forallb_forall in Hall.
  specialize (Hall Q (curve_points_In p _ _ Q (on_curve_mod a b Q HQ))).
  rewrite forallb_forall in Hall.
  specialize (Hall R (curve_points_In p _ _ R (on_curve_mod a b R HR))).
  apply point_eqb_eq in Hall. now rewrite !point_sum_mod_a in Hall.
Qed.

End Reduction.

Lemma associative_field_5 : associative_field 5 = true.
Proof. vm_compute. reflexivity. Qed.

Lemma associative_field_7 : associative_field 7 = true.
Proof. vm_compute. reflexivity. Qed.

Lemma small_primes (p : Z) : Z.prime p -> 3 < p <= 7 -> p = 5 \/ p = 7.
Proof.
  intros [_ Hp] Hr.
  assert (C : p = 4 \/ p = 5 \/ p = 6 \/ p = 7) by lia.
  destruct C as [-> | [-> | [-> | ->]]]; auto; exfalso;
    apply (Hp 2); try lia; [exists 2 | exists 3]; reflexivity.
Qed.

(** *** The sum as a function, and multiples *)

Section Multiples.

Variables p a b : Z.
Hypothesis p_prime : Z.prime p.
Hypothesis p_gt_3 : 3 < p.
Hypothesis nonsingular : ~ eqp p (4 * a * a * a + 27 * b * b) 0.

Notation "P +' Q" := (point_sum p a P Q) (at level 50, left associativity).
Notation "n *' P" := (multiple p a n P) (at level 40, left associativity).
Local Abbreviation on := (on_curve p a b).

Lemma point_sum_spec (P Q : point) :
  on P -> on Q ->
  main.curve_point_sum p a P Q = Ok (P +' Q) /\ on (P +' Q) /\
  sum_rel p a P Q (P +' Q).
Proof.
  intros HP HQ.
  destruct (main_curve_point_sum_spec p a b p_prime p_gt_3 P Q HP HQ)
    as (R & E & HR & S).
  unfold point_sum. rewrite E. auto.
Qed.

Lemma point_sum_on (P Q : point) : on P -> on Q -> on (P +' Q).
Proof. intros HP HQ. apply point_sum_spec; assumption. Qed.

Lemma point_sum_None_l (Q : point) : None +' Q = Q.
Proof. reflexivity. Qed.

Lemma point_sum_None_r (P : point) : P +' None = P.
Proof. destruct P as [[x y] |]; reflexivity. Qed.

Lemma on_satisfies (P : point) : on P -> satisfies p a b P.
Proof. destruct P as [[x y] |]; simpl; tauto. Qed.

Lemma eqP_on (P Q : point) : on P -> on Q -> eqP p P Q -> P = Q.
Proof.
  destruct P as [[x1 y1] |], Q as [[x2 y2] |]; simpl; try tauto.
  intros (Hx1 & Hy1 & _) (Hx2 & Hy2 & _) [Ex Ey].
  rewrite (eqp_small p x1 x2), (eqp_small p y1 y2); auto.
Qed.

Lemma point_sum_comm (P Q : point) : on P -> on Q -> P +' Q = Q +' P.
Proof.
  intros HP HQ.
  apply eqP_on; try (apply point_sum_on; assumption).
  apply (sum_rel_commutative p p_prime p_gt_3 a b P Q);
    try (apply on_satisfies; assumption);
    apply point_sum_spec; assumption.
Qed.

Lemma point_sum_assoc (P Q R : point) :
  on P -> on Q -> on R -> (P +' Q) +' R = P +' (Q +' R).
Proof.
  intros HP HQ HR.
  destruct (Z_lt_le_dec 7 p) as [p_gt_7 | p_le_7].
  - pose proof (point_sum_on P Q HP HQ) as HPQ.
    pose proof (point_sum_on Q R HQ HR) as HQR.
    apply eqP_on; try (apply point_sum_on; assumption).
    apply (sum_rel_associative_large p p_prime p_gt_3 a b nonsingular p_gt_7
                                     P Q R (P +' Q) (Q +' R));
      try (apply on_satisfies; assumption);
      apply point_sum_spec; assumption.
  - destruct (small_primes p p_prime ltac:(lia)) as [E | E];
      apply (associative_field_sound p p_prime a b); auto;
      rewrite E; [exact associative_field_5 | exact associative_field_7].
Qed.

Lemma multiple_on (n : nat) (P : point) : on P -> on (n *' P).
Proof.
  intros HP. induction n as [| n IH]; [exact I |].
  cbn [multiple]. now apply point_sum_on.
Qed.

Lemma multiple_1 (P : point) : 1%nat *' P = P.
Proof. cbn [multiple]. apply point_sum_None_r. Qed.

Lemma multiple_add (m n : nat) (P : point) :
  on P -> (m + n)%nat *' P = (m *' P) +' (n *' P).
Proof.
  intros HP. induction m as [| m IH]; [reflexivity |].
  cbn [Nat.add multiple]. rewrite IH.
  symmetry. apply point_sum_assoc; auto using multiple_on.
Qed.

Lemma multiple_mul (m n : nat) (P : point) :
  on P -> (m * n)%nat *' P = m *' (n *' P).
Proof.
  intros HP. induction m as [| m IH]; [reflexivity |].
  cbn [Nat.mul multiple]. rewrite multiple_add, IH by assumption.
  reflexivity.
Qed.

Lemma multiple_None (n : nat) : n *' None = None.
Proof. induction n as [| n IH]; [reflexivity |]. cbn [multiple]. exact IH. Qed.

(** *** [multiply_point] computes the multiple *)

Lemma land_1_mod (k : Z) : Z.land k 1 = k mod 2.
Proof. change 1 with (Z.ones 1) at 1. now rewrite Z.land_ones by lia. Qed.

Lemma shiftr_1_div (k : Z) : Z.shiftr k 1 = k / 2.
Proof. now rewrite Z.shiftr_div_pow2 by lia. Qed.

Lemma main_multiply_point_loop_spec (P : point) (fuel : nat) :
  on P ->
  forall factor c t,
    enough_bits fuel factor ->
    main.multiply_point_loop p a fuel factor (c *' P) (t *' P)
    = Ok ((c + t * Z.to_nat factor)%nat *' P).
Proof.
  intros HP. induction fuel as [| fuel IH]; intros factor c t Hf.
  - destruct Hf. lia.
  - cbn [main.multiply_point_loop].
    destruct (Z.gtb_spec factor 0) as [Hpos | Hle].
    + pose proof (enough_bits_shiftr fuel factor Hpos Hf) as Hs.
      assert (Ht : main.curve_point_sum p a (t *' P) (t *' P)
                   = Ok ((t + t)%nat *' P)).
      { rewrite multiple_add by assumption.
        apply point_sum_spec; auto using multiple_on. }
      assert (Hk : Z.to_nat factor
                   = (2 * Z.to_nat (factor / 2) + Z.to_nat (factor mod 2))%nat).
      { pose proof (Z.div_mod factor 2 ltac:(lia)).
        pose proof (Z.mod_pos_bound factor 2 ltac:(lia)).
        assert (0 <= factor / 2) by (apply Z.div_pos; lia).
        lia. }
      rewrite land_1_mod, shiftr_1_div in *.
      destruct (Z.eqb_spec (factor mod 2) 0) as [E0 | E1]; cbn [negb].
      * cbn [bind]. rewrite Ht. cbn [bind]. rewrite IH by exact Hs.
        f_equal. f_equal. rewrite Hk, E0. simpl Z.to_nat. lia.
      * assert (Hc : main.curve_point_sum p a (c *' P) (t *' P)
                     = Ok ((c + t)%nat *' P)).
        { rewrite multiple_add by assumption.
          apply point_sum_spec; auto using multiple_on. }
        rewrite Hc. cbn [bind]. rewrite Ht. cbn [bind].
        rewrite IH by exact Hs.
        f_equal. f_equal. rewrite Hk.
        pose proof (Z.mod_pos_bound factor 2 ltac:(lia)).
        replace (factor mod 2) with 1 by lia. simpl Z.to_nat. lia.
    + f_equal. f_equal. lia.
Qed.

Lemma main_multiply_point_spec (factor : Z) (P : point) :
  on P ->
  main.multiply_point p a factor P = Ok (Z.to_nat factor *' P).
Proof.
  intros HP. unfold main.multiply_point.
  pose proof (main_multiply_point_loop_spec P (bits_fuel factor) HP factor
                                            0%nat 1%nat
                                            (bits_fuel_enough factor)) as H.
  rewrite multiple_1 in H. cbn [multiple] in H. rewrite H.
  f_equal. f_equal. lia.
Qed.

End Multiples.

(** ** A signature of main.py verifies *)

Section SignVerify.

Variables PRIME COEFF_A COEFF_B ORDER : Z.
Variable START_POINT : Z * Z.

Hypothesis PRIME_prime : Z.prime PRIME.
Hypothesis PRIME_gt_3 : 3 < PRIME.
Hypothesis nonsingular :
  ~ eqp PRIME (4 * COEFF_A * COEFF_A * COEFF_A + 27 * COEFF_B * COEFF_B) 0.
Hypothesis ORDER_prime : Z.prime ORDER.
Hypothesis START_POINT_on_curve :
  on_curve PRIME COEFF_A COEFF_B (Some START_POINT).
Hypothesis START_POINT_order :
  main.multiply_point PRIME COEFF_A ORDER (Some START_POINT) = Ok None.

Notation "n *' P" := (multiple PRIME COEFF_A n P)
  (at level 40, left associativity).
Notation "P +' Q" := (point_sum PRIME COEFF_A P Q)
  (at level 50, left associativity).

Let G : point := Some START_POINT.

Local Abbreviation on := (on_curve PRIME COEFF_A COEFF_B).

Let mul_spec (factor : Z) (P : point) :
  on P -> main.multiply_point PRIME COEFF_A factor P
          = Ok (Z.to_nat factor *' P).
Proof. intros. eapply main_multiply_point_spec; eassumption. Qed.

Let G_multiple_on (n : nat) : on (n *' G).
Proof. eapply multiple_on; eassumption. Qed.

Let G_multiple_add (m n : nat) : (m + n)%nat *' G = (m *' G) +' (n *' G).
Proof. eapply multiple_add; eassumption. Qed.

Let G_multiple_mul (m n : nat) : (m * n)%nat *' G = m *' (n *' G).
Proof. eapply multiple_mul; eassumption. Qed.

Let sum_spec (P Q : point) :
  on P -> on Q -> main.curve_point_sum PRIME COEFF_A P Q = Ok (P +' Q).
Proof. intros. eapply point_sum_spec; eassumption. Qed.

Lemma ORDER_pos : 1 < ORDER.
Proof. apply ORDER_prime. Qed.

Lemma order_multiple : Z.to_nat ORDER *' G = None.
Proof.
  pose proof (mul_spec ORDER G START_POINT_on_curve) as H.
  unfold G in H. rewrite START_POINT_order in H. now inversion H.
Qed.

Lemma multiple_mod_ORDER (k : Z) :
  0 <= k -> Z.to_nat k *' G = Z.to_nat (k mod ORDER) *' G.
Proof.
  intros Hk. pose proof ORDER_pos as Hq.
  pose proof (Z.div_mod k ORDER ltac:(lia)) as E.
  pose proof (Z.mod_pos_bound k ORDER ltac:(lia)) as Hm.
  assert (Hd : 0 <= k / ORDER) by (apply Z.div_pos; lia).
  assert (En : Z.to_nat k
               = (Z.to_nat (k / ORDER) * Z.to_nat ORDER
                  + Z.to_nat (k mod ORDER))%nat) by nia.
  rewrite En at 1.
  rewrite G_multiple_add, G_multiple_mul, order_multiple, multiple_None.
  reflexivity.
Qed.

(** [multiply_point] gives the identity for every multiple of [ORDER] and
    every point generated by the base point. *)
Lemma main_multiply_point_order_multiple (k : Z) (n : nat) :
  k mod ORDER = 0 ->
  main.multiply_point PRIME COEFF_A k (n *' G) = Ok None.
Proof.
  intros Hk. rewrite (mul_spec k _ (G_multiple_on n)). f_equal.
  rewrite <- G_multiple_mul, Nat.mul_comm, G_multiple_mul.
  destruct (Z_lt_le_dec k 0) as [Hneg | Hpos].
  - replace (Z.to_nat k) with 0%nat by lia. apply multiple_None.
  - rewrite (multiple_mod_ORDER k Hpos), Hk. apply multiple_None.
Qed.

(** What the three tests of a turn of the signing loop let through. *)
Lemma main_signature_attempt_accepted (hash_val secret_key temp_k r s : Z) :
  main.signature_attempt PRIME COEFF_A ORDER START_POINT
                         hash_val secret_key temp_k = Ok (Some (r, s)) ->
  exists x y,
    main.multiply_point PRIME COEFF_A temp_k G = Ok (Some (x, y)) /\
    r = x mod ORDER /\ r <> 0 /\
    s = (r * secret_key + temp_k * hash_val) mod ORDER /\ s <> 0.
Proof.
  unfold main.signature_attempt. fold G.
  destruct (main.multiply_point PRIME COEFF_A temp_k G)
    as [[[x y] |] | e |]; cbn [bind]; try discriminate.
  destruct (Z.eqb_spec (x mod ORDER) 0) as [E | NE]; [discriminate |].
  destruct (Z.eqb_spec ((x mod ORDER * secret_key + temp_k * hash_val)
                          mod ORDER) 0) as [E' | NE'];
    cbn [negb]; [discriminate |].
  intros H. inversion H. subst r s. exists x, y. auto.
Qed.

Variable randbelow : nat -> Z.

Lemma main_generate_signature_loop_returns (hash_val secret_key : Z)
      (fuel : nat) :
  forall calls sig calls',
    main.generate_signature_loop PRIME COEFF_A ORDER START_POINT randbelow
                                 fuel hash_val secret_key calls
    = Ok (sig, calls') ->
    exists temp_k,
      main.signature_attempt PRIME COEFF_A ORDER START_POINT
                             hash_val secret_key temp_k = Ok (Some sig).
Proof.
  induction fuel as [| fuel IH]; intros calls sig calls' H;
    [discriminate |].
  cbn [main.generate_signature_loop] in H.
  destruct (main.signature_attempt PRIME COEFF_A ORDER START_POINT
                                   hash_val secret_key (randbelow calls + 1))
    as [[sig' |] | e |] eqn:E; cbn [bind] in H; try discriminate.
  - inversion H. subst. eauto.
  - eauto.
Qed.

(** The arithmetic of the verification equation, modulo [ORDER]. *)
Lemma verification_scalars (h ih d k r s u1 u2 : Z) :
  eqp ORDER (ih * h) 1 ->
  eqp ORDER s (r * d + k * h) ->
  eqp ORDER u1 (s * ih) ->
  eqp ORDER u2 (- r * ih) ->
  eqp ORDER (u1 + u2 * d) k.
Proof. intros. nsatz. Qed.

Lemma main_check_signature_accepts (digest secret_key temp_k x y : Z) :
  1 <= secret_key < ORDER ->
  main.multiply_point PRIME COEFF_A temp_k G = Ok (Some (x, y)) ->
  let hash_val := digest_value ORDER digest in
  let r := x mod ORDER in
  let s := (r * secret_key + temp_k * hash_val) mod ORDER in
  r <> 0 -> s <> 0 ->
  main.check_signature PRIME COEFF_A ORDER START_POINT digest (r, s)
                       (Z.to_nat secret_key *' G) = Ok true.
Proof.
  intros Hd Hk h r s Hr Hs. pose proof ORDER_pos as Hq.
  pose proof (Z.mod_pos_bound x ORDER ltac:(lia)) as Br. fold r in Br.
  pose proof (Z.mod_pos_bound (r * secret_key + temp_k * h) ORDER
                              ltac:(lia)) as Bs.
  fold s in Bs.
  pose proof (digest_value_range ORDER digest Hq) as Bh. fold h in Bh.
  (* The nonce is positive and gives the point (x, y). *)
  pose proof (mul_spec temp_k G START_POINT_on_curve) as Ek.
  rewrite Hk in Ek. injection Ek as Ek.
  assert (Hpos : 0 <= temp_k).
  { destruct (Z_lt_le_dec temp_k 0) as [Hneg | ?]; [| assumption].
    replace (Z.to_nat temp_k) with 0%nat in Ek by lia. discriminate. }
  (* The inverse of the digest. *)
  destruct (main_inverse_modulo_coprime h ORDER Hq) as (ih & Ei & _ & Hi).
  { rewrite Z.gcd_comm. apply Z.coprime_prime_small; [exact ORDER_prime | lia]. }
  unfold main.check_signature.
  destruct (Z.leb_spec 1 r); [| lia].
  destruct (Z.ltb_spec r ORDER); [| lia].
  destruct (Z.leb_spec 1 s); [| lia].
  destruct (Z.ltb_spec s ORDER); [| lia].
  cbn [andb negb]. cbv zeta.
  change (if digest mod ORDER =? 0 then 1 else digest mod ORDER) with h.
  rewrite Ei. cbn [bind].
  set (u1 := (s * ih) mod ORDER).
  set (u2 := (- r * ih) mod ORDER).
  pose proof (Z.mod_pos_bound (s * ih) ORDER ltac:(lia)) as B1. fold u1 in B1.
  pose proof (Z.mod_pos_bound (- r * ih) ORDER ltac:(lia)) as B2.
  fold u2 in B2.
  fold G. rewrite (mul_spec u1 G START_POINT_on_curve). cbn [bind].
  rewrite (mul_spec u2 _ (G_multiple_on _)). cbn [bind].
  assert (HS : main.curve_point_sum
                 PRIME COEFF_A (Z.to_nat u1 *' G)
                 (Z.to_nat u2 *' (Z.to_nat secret_key *' G))
               = Ok (Some (x, y))).
  { rewrite Ek, <- G_multiple_mul.
    rewrite (multiple_mod_ORDER temp_k Hpos).
    assert (Hc : (u1 + u2 * secret_key) mod ORDER = temp_k mod ORDER).
    { apply (verification_scalars h ih secret_key temp_k r s u1 u2).
      - unfold eqp. rewrite Z.mul_comm, Hi. symmetry. apply Z.mod_1_l. lia.
      - apply eqp_mod. exact ORDER_prime.
      - apply eqp_mod. exact ORDER_prime.
      - apply eqp_mod. exact ORDER_prime. }
    rewrite <- Hc.
    rewrite <- (multiple_mod_ORDER (u1 + u2 * secret_key)) by nia.
    replace (Z.to_nat (u1 + u2 * secret_key))
      with (Z.to_nat u1 + Z.to_nat u2 * Z.to_nat secret_key)%nat by nia.
    rewrite G_multiple_add. apply sum_spec; apply G_multiple_on. }
  rewrite HS. cbn [bind]. fold r. now rewrite Z.eqb_refl.
Qed.

(** On such a curve a turn of the signing loop raises nothing. *)
Lemma main_signature_attempt_total (hash_val secret_key temp_k : Z) :
  exists o,
    main.signature_attempt PRIME COEFF_A ORDER START_POINT
                           hash_val secret_key temp_k = Ok o.
Proof.
  unfold main.signature_attempt. fold G.
  rewrite (mul_spec temp_k G START_POINT_on_curve). cbn [bind].
  destruct (Z.to_nat temp_k *' G) as [[x y] |]; [| eauto].
  destruct (x mod ORDER =? 0); [eauto |].
  destruct (negb _); eauto.
Qed.

Lemma main_generate_signature_loop_no_raise (hash_val secret_key : Z)
      (fuel : nat) :
  forall calls e,
    main.generate_signature_loop PRIME COEFF_A ORDER START_POINT randbelow
                                 fuel hash_val secret_key calls
    <> Raise e.
Proof.
  induction fuel as [| fuel IH]; intros calls e; [discriminate |].
  cbn [main.generate_signature_loop].
  destruct (main_signature_attempt_total hash_val secret_key
                                         (randbelow calls + 1)) as [o E].
  rewrite E. cbn [bind]. destruct o; [discriminate | apply IH].
Qed.

(** C1.  For a curve [y^2 = x^3 + a x + b] over a prime field of more than
    3 elements, not singular, with a base point on it that [ORDER], a
    prime, times gives the identity: whatever the digest, the private key
    [d] of [1, ORDER) and the answers of the random generator,
    [generate_signature] raises nothing, and a signature that it returns
    is accepted by [check_signature] with the public key
    [multiply_point d START_POINT]. *)
Theorem sign_then_verify (secret_key digest : Z) (fuel calls : nat) :
  1 <= secret_key < ORDER ->
  (forall e,
      main.generate_signature PRIME COEFF_A ORDER START_POINT randbelow
                              fuel secret_key digest calls <> Raise e) /\
  (forall signature calls',
      main.generate_signature PRIME COEFF_A ORDER START_POINT randbelow
                              fuel secret_key digest calls
      = Ok (signature, calls') ->
      exists open_key,
        main.multiply_point PRIME COEFF_A secret_key (Some START_POINT)
        = Ok open_key /\
        main.check_signature PRIME COEFF_A ORDER START_POINT
                             digest signature open_key = Ok true).
Proof.
  intros Hd. rewrite main_generate_signature_digest. split.
  - intros e. apply main_generate_signature_loop_no_raise.
  - intros signature calls' Hs.
    destruct (main_generate_signature_loop_returns _ _ _ _ _ _ Hs)
      as [temp_k Ha].
    destruct signature as [r s].
    destruct (main_signature_attempt_accepted _ _ _ _ _ Ha)
      as (x & y & Hk & Er & Hr & Es & Hs').
    exists (Z.to_nat secret_key *' G). split.
    + apply mul_spec. exact START_POINT_on_curve.
    + subst r s. now apply (main_check_signature_accepts _ _ temp_k x y).
Qed.

End SignVerify.

Lemma no_divisor_sound (n : nat) (p d : Z) :
  no_divisor n p = true -> 1 < d <= Z.of_nat n -> ~ (d | p).
Proof.
  induction n as [| n IH]; intros H Hd; [lia |].
  cbn [no_divisor] in H. apply andb_true_iff in H. destruct H as [H1 H2].
  destruct (Z.eq_dec d (Z.of_nat (S n))) as [-> | NE].
  - apply orb_true_iff in H1. destruct H1 as [H1 | H1].
    + apply Z.leb_le in H1. lia.
    + intros Hdiv. apply Z.mod_divide in Hdiv; [| lia].
      rewrite Hdiv in H1. discriminate.
  - apply IH; [exact H2 | lia].
Qed.

Lemma prime_check_sound (p : Z) : prime_check p = true -> Z.prime p.
Proof.
  unfold prime_check. intros H. apply andb_true_iff in H.
  destruct H as [H1 H2]. apply Z.ltb_lt in H1.
  split; [exact H1 |]. intros n Hn.
  apply (no_divisor_sound _ _ _ H2). lia.
Qed.

(** The curve [y^2 = x^3 + 2 x + 2] over the field of 17 elements, whose
    19 points are the multiples of [(5, 1)].  With the private key 3 and
    the digest 10, the nonce 7 is rejected ([r = 0]) and the nonce 8 gives
    the signature [(13, 5)], which verifies. *)
Lemma sign_then_verify_witness :
  main.generate_signature 17 2 19 (5, 1) (fun i => Z.of_nat i + 6) 5 3 10 0
  = Ok ((13, 5), 2%nat) /\
  exists open_key,
    main.multiply_point 17 2 3 (Some (5, 1)) = Ok open_key /\
    main.check_signature 17 2 19 (5, 1) 10 (13, 5) open_key = Ok true.
Proof.
  assert (Hp : Z.prime 17) by (apply prime_check_sound; reflexivity).
  assert (Hq : Z.prime 19) by (apply prime_check_sound; reflexivity).
  assert (H3 : 3 < 17) by lia.
  assert (Hn : ~ eqp 17 (4 * 2 * 2 * 2 + 27 * 2 * 2) 0)
    by (unfold eqp; simpl; discriminate).
  assert (HG : on_curve 17 2 2 (Some (5, 1)))
    by (simpl; unfold eqp; repeat split; try lia; reflexivity).
  assert (HO : main.multiply_point 17 2 19 (Some (5, 1)) = Ok None)
    by reflexivity.
  assert (Hd : 1 <= 3 < 19) by lia.
  assert (Hs : main.generate_signature 17 2 19 (5, 1)
                                       (fun i => Z.of_nat i + 6) 5 3 10 0
               = Ok ((13, 5), 2%nat)) by reflexivity.
  split; [exact Hs |].
  exact (proj2 (sign_then_verify 17 2 2 19 (5, 1) Hp H3 Hn Hq HG HO
                                 (fun i => Z.of_nat i + 6) 3 10 5%nat 0%nat
                                 Hd) (13, 5) 2%nat Hs).
Defined.

(** ** [curve_point_sum] of main.py is commutative *)

Section MainCommutative.

Variables p a : Z.
Hypothesis p_prime : Z.prime p.

(** On every two pairs with coordinates in [0, p), on the curve or not:
    the sums in the two orders are the same point, or raise the same
    exception. *)
Lemma main_curve_point_sum_comm (P Q : point) :
  (forall x y, P = Some (x, y) -> 0 <= x < p /\ 0 <= y < p) ->
  (forall x y, Q = Some (x, y) -> 0 <= x < p /\ 0 <= y < p) ->
  main.curve_point_sum p a P Q = main.curve_point_sum p a Q P.
Proof.
  intros HP HQ. pose proof (p_gt_1 p p_prime) as Hp.
  destruct P as [[x1 y1] |], Q as [[x2 y2] |]; try reflexivity.
  destruct (HP x1 y1 eq_refl) as [Hx1 Hy1].
  destruct (HQ x2 y2 eq_refl) as [Hx2 Hy2].
  unfold main.curve_point_sum, tuple_eqb. cbn [fst snd].
  rewrite (Z.eqb_sym x2 x1), (Z.eqb_sym y2 y1), (Z.add_comm y2 y1).
  destruct (Z.eqb_spec x1 x2) as [Ex | Nx]; cbn [andb].
  - subst x2. destruct (_ =? 0); [reflexivity |].
    destruct (Z.eqb_spec y1 y2) as [Ey | Ny]; [now subst |].
    rewrite Z.sub_diag. reflexivity.
  - destruct (main_inverse_modulo_prime p p_prime (x2 - x1))
      as (i & Ei & Hi).
    { intros H. apply Nx. symmetry.
      now apply (eqp_difference_small p p_prime). }
    destruct (main_inverse_modulo_prime p p_prime (x1 - x2))
      as (j & Ej & Hj).
    { intros H. apply Nx. now apply (eqp_difference_small p p_prime). }
    rewrite Ei, Ej. cbn [bind].
    assert (Eg : (y2 - y1) * i mod p = (y1 - y2) * j mod p).
    { change (eqp p ((y2 - y1) * i) ((y1 - y2) * j)). nsatz. }
    rewrite <- Eg. set (g := (y2 - y1) * i mod p).
    assert (Hg : eqp p g ((y2 - y1) * i)) by apply (eqp_mod p p_prime).
    clearbody g.
    replace (g * g - x2 - x1) with (g * g - x1 - x2) by ring.
    set (x3 := (g * g - x1 - x2) mod p).
    assert (Ey : (g * (x1 - x3) - y1) mod p = (g * (x2 - x3) - y2) mod p).
    { change (eqp p (g * (x1 - x3) - y1) (g * (x2 - x3) - y2)).
      clearbody x3. nsatz. }
    now rewrite Ey.
Qed.

End MainCommutative.

(** ** Scalar multiplication and the identity, again *)

(** C7, counterexample.  [multiply_point] of main.py does not reduce its
    factor, and a point of the curve need not be a multiple of the base
    point.  On the curve [y^2 = x^3 + 1] over the field of 7 elements the
    base point [(0, 1)] has the prime order 3, so that the parameter set is
    valid; the point [(3, 0)] is on the curve and has order 2: 3 times
    [(3, 0)] is [(3, 0)], not the identity, although [3 mod 3 = 0]. *)
Lemma main_multiply_point_order_counterexample :
  valid_parameters 7 0 1 3 (0, 1) /\
  on_curve 7 0 1 (Some (3, 0)) /\
  0 <= 3 /\ 3 mod 3 = 0 /\
  main.multiply_point 7 0 3 (Some (3, 0)) = Ok (Some (3, 0)).
Proof.
  split.
  - unfold valid_parameters.
    split; [apply prime_check_sound; reflexivity |].
    split; [lia |].
    split; [unfold eqp; simpl; discriminate |].
    split; [apply prime_check_sound; reflexivity |].
    split; [simpl; unfold eqp; repeat split; try lia; reflexivity |].
    reflexivity.
  - split; [simpl; unfold eqp; repeat split; try lia; reflexivity |].
    split; [lia |]. split; reflexivity.
Qed.

(** C7, amended.  [multiply_point] of main.py and [point_mult] of
    main_v3.py return the identity for the factor 0 and for the point
    [None], whatever the other argument.  [point_mult] of main_v3.py, which
    reduces its factor modulo [q], returns the identity whenever
    [k mod q = 0].  [multiply_point] of main.py does not reduce its factor;
    on a proper parameter set (a non-singular curve over a prime field of
    more than 3 elements, a base point on it that the prime [ORDER] times
    gives the identity) it returns the identity whenever
    [k mod ORDER = 0] for the base point and its multiples. *)
Theorem scalar_multiplication_identity :
  (forall PRIME COEFF_A P,
      main.multiply_point PRIME COEFF_A 0 P = Ok None) /\
  (forall PRIME COEFF_A k,
      main.multiply_point PRIME COEFF_A k None = Ok None) /\
  (forall p a q P, main_v3.point_mult p a q 0 P = Ok None) /\
  (forall p a q k, main_v3.point_mult p a q k None = Ok None) /\
  (forall p a q k P,
      k mod q = 0 -> main_v3.point_mult p a q k P = Ok None) /\
  (forall PRIME COEFF_A COEFF_B ORDER START_POINT k n,
      Z.prime PRIME -> 3 < PRIME ->
      ~ eqp PRIME (4 * COEFF_A * COEFF_A * COEFF_A
                   + 27 * COEFF_B * COEFF_B) 0 ->
      Z.prime ORDER ->
      on_curve PRIME COEFF_A COEFF_B (Some START_POINT) ->
      main.multiply_point PRIME COEFF_A ORDER (Some START_POINT) = Ok None ->
      k mod ORDER = 0 ->
      main.multiply_point PRIME COEFF_A k
                          (multiple PRIME COEFF_A n (Some START_POINT))
      = Ok None).
Proof.
  split; [exact main_multiply_point_zero |].
  split; [exact main_multiply_point_None |].
  split; [exact main_v3_point_mult_zero |].
  split; [exact main_v3_point_mult_None |].
  split; [exact main_v3_point_mult_multiple |].
  intros. eapply main_multiply_point_order_multiple; eassumption.
Qed.

Lemma scalar_multiplication_identity_witness :
  main_v3.point_mult main_v2.p main_v2.a main_v2.q (2 * main_v2.q)
                     (Some main_v2.G) = Ok None /\
  main.multiply_point 17 2 38 (Some (5, 1)) = Ok None.
Proof.
  split.
  - apply (proj1 (proj2 (proj2 (proj2 (proj2
             scalar_multiplication_identity))))).
    reflexivity.
  - apply (proj2 (proj2 (proj2 (proj2 (proj2
             scalar_multiplication_identity))))
             17 2 2 19 (5, 1) 38 1%nat).
    + apply prime_check_sound. reflexivity.
    + lia.
    + unfold eqp. simpl. discriminate.
    + apply prime_check_sound. reflexivity.
    + simpl. unfold eqp. repeat split; try lia; reflexivity.
    + reflexivity.
    + reflexivity.
Defined.

(** ** The group of main.py *)

(** The parameters of the examples: [y^2 = x^3 + 2 x + 2] over the field
    of 17 elements, with the base point [(5, 1)] of order 19. *)
Lemma example_parameters : valid_parameters 17 2 2 19 (5, 1).
Proof.
  unfold valid_parameters.
  split; [apply prime_check_sound; reflexivity |].
  split; [lia |].
  split; [unfold eqp; simpl; discriminate |].
  split; [apply prime_check_sound; reflexivity |].
  split; [simpl; unfold eqp; repeat split; try lia; reflexivity |].
  reflexivity.
Qed.

Section Opposite.

Variables p a b : Z.
Hypothesis p_prime : Z.prime p.
Hypothesis p_gt_3 : 3 < p.
Hypothesis nonsingular : ~ eqp p (4 * a * a * a + 27 * b * b) 0.

Notation "P +' Q" := (point_sum p a P Q) (at level 50, left associativity).
Notation "n *' P" := (multiple p a n P) (at level 40, left associativity).
Local Abbreviation on := (on_curve p a b).

Lemma negate_on (P : point) : on P -> on (negate p P).
Proof.
  destruct P as [[x y] |]; [| trivial].
  intros (Hx & Hy & E). cbn [negate on_curve].
  split; [exact Hx |].
  split; [apply Z.mod_pos_bound; lia |].
  unfold eqp in *. rewrite <- E.
  rewrite <- Z.mul_mod by lia. f_equal. ring.
Qed.

Lemma point_sum_negate (P : point) : P +' negate p P = None.
Proof.
  destruct P as [[x y] |]; [| reflexivity].
  unfold point_sum, negate, main.curve_point_sum.
  rewrite Z.eqb_refl, Z.add_mod_idemp_r by lia.
  replace (y + - y) with 0 by ring.
  rewrite Z.mod_0_l by lia. reflexivity.
Qed.

Lemma point_sum_cancel_r (P Q R : point) :
  on P -> on Q -> on R -> P +' R = Q +' R -> P = Q.
Proof.
  intros HP HQ HR E.
  pose proof (negate_on R HR) as HN.
  assert (A : forall X, on X -> (X +' R) +' negate p R = X).
  { intros X HX.
    rewrite (point_sum_assoc p a b p_prime p_gt_3 nonsingular X R _ HX HR HN).
    rewrite point_sum_negate. apply point_sum_None_r. }
  rewrite <- (A P HP), <- (A Q HQ), E. reflexivity.
Qed.

End Opposite.

Section Generated.

Variables p a b q : Z.
Variable G : Z * Z.
Hypothesis valid : valid_parameters p a b q G.

Notation "P +' Q" := (point_sum p a P Q) (at level 50, left associativity).
Notation "n *' P" := (multiple p a n P) (at level 40, left associativity).
Local Abbreviation on := (on_curve p a b).

Let p_prime : Z.prime p.
Proof. apply valid. Qed.

Let p_gt_3 : 3 < p.
Proof. apply valid. Qed.

Let nonsingular : ~ eqp p (4 * a * a * a + 27 * b * b) 0.
Proof. apply valid. Qed.

Let q_prime : Z.prime q.
Proof. apply valid. Qed.

Let G_on : on (Some G).
Proof. apply valid. Qed.

Let G_order : main.multiply_point p a q (Some G) = Ok None.
Proof. apply valid. Qed.

Lemma multiple_order_exact (n : nat) :
  (0 < n)%nat -> Z.of_nat n < q -> n *' Some G <> None.
Proof.
  intros Hn Hq E.
  pose proof (ORDER_pos q q_prime) as Hq1.
  assert (Hg : Z.gcd (Z.of_nat n) q = 1).
  { rewrite Z.gcd_comm. apply Z.coprime_prime_small with (1 := q_prime). lia. }
  destruct (main_inverse_modulo_coprime (Z.of_nat n) q Hq1 Hg)
    as (w & _ & Hw & Ew).
  assert (H1 : Z.to_nat (Z.of_nat n * w) *' Some G = Some G).
  { rewrite (multiple_mod_ORDER p a b q G p_prime p_gt_3 nonsingular q_prime
                                G_on G_order) by nia.
    rewrite Ew. apply multiple_1. }
  replace (Z.to_nat (Z.of_nat n * w)) with (Z.to_nat w * n)%nat in H1 by nia.
  rewrite (multiple_mul p a b p_prime p_gt_3 nonsingular) in H1 by exact G_on.
  rewrite E, multiple_None in H1. discriminate.
Qed.

Lemma multiple_injective (m n : nat) :
  Z.of_nat m < q -> Z.of_nat n < q -> m *' Some G = n *' Some G -> m = n.
Proof.
  assert (A : forall m n, (m <= n)%nat -> Z.of_nat n < q ->
                          m *' Some G = n *' Some G -> m = n).
  { clear m n. intros m n Hmn Hn E.
    destruct (Nat.eq_dec m n) as [| NE]; [assumption | exfalso].
    apply (multiple_order_exact (n - m)); [lia | lia |].
    apply (point_sum_cancel_r p a b p_prime p_gt_3 nonsingular _ _
                              (m *' Some G)).
    - eapply multiple_on; eassumption.
    - exact I.
    - eapply multiple_on; eassumption.
    - rewrite <- (multiple_add p a b p_prime p_gt_3 nonsingular) by exact G_on.
      replace (n - m + m)%nat with n by lia.
      rewrite point_sum_None_l. symmetry. exact E. }
  intros Hm Hn E.
  destruct (Nat.le_ge_cases m n) as [L | L].
  - now apply A.
  - symmetry. now apply A.
Qed.

End Generated.

(** X1.  [curve_point_sum] is closed on the curve: on two points of a
    curve over a prime field of more than 3 elements it raises nothing
    and returns a point of the curve. *)
Theorem main_curve_point_sum_closed (p a b : Z) (P Q : point) :
  Z.prime p -> 3 < p ->
  on_curve p a b P -> on_curve p a b Q ->
  exists R, main.curve_point_sum p a P Q = Ok R /\ on_curve p a b R.
Proof.
  intros Hp H3 HP HQ.
  destruct (main_curve_point_sum_spec p a b Hp H3 P Q HP HQ)
    as (R & E & HR & _).
  exists R. auto.
Qed.

Lemma main_curve_point_sum_closed_witness :
  on_curve 17 2 2 (Some (5, 1)) /\ on_curve 17 2 2 (Some (6, 3)) /\
  exists R, main.curve_point_sum 17 2 (Some (5, 1)) (Some (6, 3)) = Ok R
            /\ on_curve 17 2 2 R.
Proof.
  assert (HP : on_curve 17 2 2 (Some (5, 1)))
    by (simpl; unfold eqp; repeat split; try lia; reflexivity).
  assert (HQ : on_curve 17 2 2 (Some (6, 3)))
    by (simpl; unfold eqp; repeat split; try lia; reflexivity).
  split; [exact HP |]. split; [exact HQ |].
  apply (main_curve_point_sum_closed 17 2 2); auto.
  - apply prime_check_sound; reflexivity.
  - lia.
Defined.

(** X2.  [curve_point_sum] does not depend on the order of its
    arguments: on any two points with coordinates in [0, p), on the curve
    or not, the two calls return the same point or raise the same
    exception. *)
Theorem main_curve_point_sum_commutative (p a x1 y1 x2 y2 : Z) :
  Z.prime p ->
  0 <= x1 < p -> 0 <= y1 < p -> 0 <= x2 < p -> 0 <= y2 < p ->
  main.curve_point_sum p a (Some (x1, y1)) (Some (x2, y2))
  = main.curve_point_sum p a (Some (x2, y2)) (Some (x1, y1)).
Proof.
  intros Hp Hx1 Hy1 Hx2 Hy2.
  apply main_curve_point_sum_comm; [exact Hp | |];
    intros x y E; inversion E; subst; auto.
Qed.

Lemma main_curve_point_sum_commutative_witness :
  main.curve_point_sum 17 2 (Some (5, 1)) (Some (6, 3))
  = main.curve_point_sum 17 2 (Some (6, 3)) (Some (5, 1)).
Proof.
  apply main_curve_point_sum_commutative; try lia.
  apply prime_check_sound; reflexivity.
Defined.

(** X3.  [curve_point_sum] is associative on the points of a curve that
    is not singular: the two ways of adding three points raise nothing
    and return the same point. *)
Theorem main_curve_point_sum_associative (p a b : Z) (P Q R : point) :
  Z.prime p -> 3 < p -> ~ eqp p (4 * a * a * a + 27 * b * b) 0 ->
  on_curve p a b P -> on_curve p a b Q -> on_curve p a b R ->
  exists S,
    (PQ <- main.curve_point_sum p a P Q ;; main.curve_point_sum p a PQ R)
    = Ok S /\
    (QR <- main.curve_point_sum p a Q R ;; main.curve_point_sum p a P QR)
    = Ok S.
Proof.
  intros Hp H3 Hn HP HQ HR.
  pose proof (point_sum_spec p a b Hp H3) as Sp.
  pose proof (point_sum_on p a b Hp H3) as On.
  exists (point_sum p a (point_sum p a P Q) R). split.
  - rewrite (proj1 (Sp P Q HP HQ)). cbn [bind].
    apply Sp; auto.
  - rewrite (proj1 (Sp Q R HQ HR)). cbn [bind].
    rewrite (point_sum_assoc p a b Hp H3 Hn P Q R HP HQ HR).
    apply Sp; auto.
Qed.

Lemma main_curve_point_sum_associative_witness :
  exists S,
    (PQ <- main.curve_point_sum 17 2 (Some (5, 1)) (Some (6, 3)) ;;
     main.curve_point_sum 17 2 PQ (Some (5, 1))) = Ok S /\
    (QR <- main.curve_point_sum 17 2 (Some (6, 3)) (Some (5, 1)) ;;
     main.curve_point_sum 17 2 (Some (5, 1)) QR) = Ok S.
Proof.
  apply (main_curve_point_sum_associative 17 2 2).
  - apply prime_check_sound; reflexivity.
  - lia.
  - unfold eqp; simpl; discriminate.
  - simpl; unfold eqp; repeat split; try lia; reflexivity.
  - simpl; unfold eqp; repeat split; try lia; reflexivity.
  - simpl; unfold eqp; repeat split; try lia; reflexivity.
Defined.

(** X4.  The double-and-add loop of [multiply_point] computes the
    repeated sum: on a point of the curve it raises nothing and returns
    [P + (P + ... + (P + None))] with [factor] terms (none when [factor]
    is negative). *)
Theorem main_multiply_point_repeated_sum (p a b factor : Z) (P : point) :
  Z.prime p -> 3 < p -> ~ eqp p (4 * a * a * a + 27 * b * b) 0 ->
  on_curve p a b P ->
  main.multiply_point p a factor P = Ok (multiple p a (Z.to_nat factor) P).
Proof.
  intros Hp H3 Hn HP. now apply (main_multiply_point_spec p a b).
Qed.

Lemma main_multiply_point_repeated_sum_witness :
  main.multiply_point 17 2 11 (Some (5, 1))
  = Ok (multiple 17 2 (Z.to_nat 11) (Some (5, 1))).
Proof.
  apply (main_multiply_point_repeated_sum 17 2 2).
  - apply prime_check_sound; reflexivity.
  - lia.
  - unfold eqp; simpl; discriminate.
  - simpl; unfold eqp; repeat split; try lia; reflexivity.
Defined.

(** X5.  [multiply_point] turns sums and products of factors into sums
    and multiples of points: for [j, k >= 0] and a point of the curve,
    [(j + k) P = j P + k P] and [(j * k) P = j (k P)], none of the calls
    raising. *)
Theorem main_multiply_point_homomorphism (p a b j k : Z) (P : point) :
  Z.prime p -> 3 < p -> ~ eqp p (4 * a * a * a + 27 * b * b) 0 ->
  on_curve p a b P -> 0 <= j -> 0 <= k ->
  exists jP kP,
    main.multiply_point p a j P = Ok jP /\
    main.multiply_point p a k P = Ok kP /\
    main.multiply_point p a (j + k) P = main.curve_point_sum p a jP kP /\
    main.multiply_point p a (j * k) P = main.multiply_point p a j kP.
Proof.
  intros Hp H3 Hn HP Hj Hk.
  pose proof (main_multiply_point_spec p a b Hp H3 Hn) as M.
  pose proof (multiple_on p a b Hp H3) as On.
  exists (multiple p a (Z.to_nat j) P), (multiple p a (Z.to_nat k) P).
  split; [now apply M |]. split; [now apply M |]. split.
  - rewrite M by assumption.
    rewrite (proj1 (point_sum_spec p a b Hp H3 _ _ (On _ _ HP) (On _ _ HP))).
    rewrite <- (multiple_add p a b Hp H3 Hn) by assumption.
    f_equal. f_equal. lia.
  - rewrite !M by auto.
    rewrite <- (multiple_mul p a b Hp H3 Hn) by assumption.
    f_equal. f_equal. nia.
Qed.

Lemma main_multiply_point_homomorphism_witness :
  exists jP kP,
    main.multiply_point 17 2 3 (Some (5, 1)) = Ok jP /\
    main.multiply_point 17 2 4 (Some (5, 1)) = Ok kP /\
    main.multiply_point 17 2 (3 + 4) (Some (5, 1))
    = main.curve_point_sum 17 2 jP kP /\
    main.multiply_point 17 2 (3 * 4) (Some (5, 1))
    = main.multiply_point 17 2 3 kP.
Proof.
  apply (main_multiply_point_homomorphism 17 2 2).
  - apply prime_check_sound; reflexivity.
  - lia.
  - unfold eqp; simpl; discriminate.
  - simpl; unfold eqp; repeat split; try lia; reflexivity.
  - lia.
  - lia.
Defined.

(** X6.  On the base point of a valid parameter set, [multiply_point]
    depends on a factor [k >= 0] only through [k mod ORDER]. *)
Theorem main_multiply_point_mod_order (p a b q k : Z) (G : Z * Z) :
  valid_parameters p a b q G -> 0 <= k ->
  main.multiply_point p a k (Some G)
  = main.multiply_point p a (k mod q) (Some G).
Proof.
  intros (Hp & H3 & Hn & Hq & HG & HO) Hk.
  rewrite !(main_multiply_point_spec p a b Hp H3 Hn) by assumption.
  f_equal. now apply (multiple_mod_ORDER p a b q G).
Qed.

Lemma main_multiply_point_mod_order_witness :
  main.multiply_point 17 2 100 (Some (5, 1))
  = main.multiply_point 17 2 (100 mod 19) (Some (5, 1)).
Proof.
  apply (main_multiply_point_mod_order 17 2 2).
  - exact example_parameters.
  - lia.
Defined.

(** X7.  With valid parameters and a generator that answers in
    [0, ORDER - 1), [create_keypair] raises nothing and returns a secret
    key in [1, ORDER) with an open key that is a point of the curve and
    not the identity. *)
Theorem main_create_keypair_valid (p a b q : Z) (G : Z * Z)
        (randbelow : nat -> Z) (calls : nat) :
  valid_parameters p a b q G ->
  0 <= randbelow calls < q - 1 ->
  exists d Q,
    main.create_keypair p a G randbelow calls = Ok (d, Some Q, S calls) /\
    1 <= d < q /\ on_curve p a b (Some Q).
Proof.
  intros V Hr. pose proof V as (Hp & H3 & Hn & Hq & HG & HO).
  unfold main.create_keypair.
  rewrite (main_multiply_point_spec p a b Hp H3 Hn) by assumption.
  cbn [bind].
  pose proof (multiple_order_exact p a b q G V
                (Z.to_nat (randbelow calls + 1)) ltac:(lia) ltac:(lia)) as NE.
  pose proof (multiple_on p a b Hp H3 (Z.to_nat (randbelow calls + 1))
                          (Some G) HG) as On.
  destruct (multiple p a (Z.to_nat (randbelow calls + 1)) (Some G))
    as [Q |]; [| congruence].
  exists (randbelow calls + 1), Q. repeat split; auto; lia.
Qed.

Lemma main_create_keypair_valid_witness :
  exists d Q,
    main.create_keypair 17 2 (5, 1) (fun _ => 6) 0 = Ok (d, Some Q, 1%nat) /\
    1 <= d < 19 /\ on_curve 17 2 2 (Some Q).
Proof.
  apply (main_create_keypair_valid 17 2 2 19 (5, 1) (fun _ => 6) 0%nat).
  - exact example_parameters.
  - lia.
Defined.

(** X8.  With valid parameters two different secret keys of [1, ORDER)
    never have the same open key. *)
Theorem main_open_key_injective (p a b q d1 d2 : Z) (G : Z * Z) :
  valid_parameters p a b q G ->
  1 <= d1 < q -> 1 <= d2 < q -> d1 <> d2 ->
  main.multiply_point p a d1 (Some G) <> main.multiply_point p a d2 (Some G).
Proof.
  intros V H1 H2 NE E. pose proof V as (Hp & H3 & Hn & Hq & HG & HO).
  rewrite !(main_multiply_point_spec p a b Hp H3 Hn) in E by assumption.
  inversion E as [E'].
  apply (multiple_injective p a b q G V) in E'; lia.
Qed.

Lemma main_open_key_injective_witness :
  3 <> 4 /\
  main.multiply_point 17 2 3 (Some (5, 1))
  <> main.multiply_point 17 2 4 (Some (5, 1)).
Proof.
  split; [lia |].
  apply (main_open_key_injective 17 2 2 19 3 4 (5, 1)).
  - exact example_parameters.
  - lia.
  - lia.
  - lia.
Defined.

(** X9.  With valid parameters and an open key on the curve,
    [check_signature] raises nothing: it answers [True] or [False] on
    every digest and every pair of integers. *)
Theorem main_check_signature_total (p a b q digest r s : Z) (G : Z * Z)
        (open_key : point) :
  valid_parameters p a b q G ->
  on_curve p a b open_key ->
  exists answer,
    main.check_signature p a q G digest (r, s) open_key = Ok answer.
Proof.
  intros (Hp & H3 & Hn & Hq & HG & HO) HK.
  pose proof (ORDER_pos q Hq) as Hq1.
  unfold main.check_signature.
  destruct (negb _); [eexists; reflexivity |].
  cbv zeta.
  change (if digest mod q =? 0 then 1 else digest mod q)
    with (digest_value q digest).
  pose proof (digest_value_range q digest ltac:(lia)) as Hh.
  destruct (main_inverse_modulo_prime q Hq (digest_value q digest))
    as (i & Ei & _).
  { intros E. apply (eqp_small q) in E; lia. }
  rewrite Ei. cbn [bind].
  pose proof (main_multiply_point_spec p a b Hp H3 Hn) as M.
  pose proof (multiple_on p a b Hp H3) as On.
  rewrite !M by assumption. cbn [bind].
  rewrite (proj1 (point_sum_spec p a b Hp H3 _ _ (On _ _ HG) (On _ _ HK))).
  cbn [bind].
  destruct (point_sum p a _ _) as [[x y] |]; eexists; reflexivity.
Qed.

Lemma main_check_signature_total_witness :
  exists answer,
    main.check_signature 17 2 19 (5, 1) 10 (13, 6) (Some (6, 3)) = Ok answer.
Proof.
  apply (main_check_signature_total 17 2 2).
  - exact example_parameters.
  - simpl; unfold eqp; repeat split; try lia; reflexivity.
Defined.

(** X10.  Whatever the parameters, as soon as [ORDER] is positive every
    signature that [generate_signature] returns has both components in
    [1, ORDER), the range that [check_signature] asks for, and at least
    one nonce was drawn. *)
Theorem main_generate_signature_range (p a q : Z) (G : Z * Z)
        (randbelow : nat -> Z) (fuel : nat) (secret_key digest : Z)
        (calls calls' : nat) (r s : Z) :
  0 < q ->
  main.generate_signature p a q G randbelow fuel secret_key digest calls
  = Ok ((r, s), calls') ->
  1 <= r < q /\ 1 <= s < q /\ (calls < calls')%nat.
Proof.
  intros Hq. unfold main.generate_signature. cbv zeta.
  generalize (if digest mod q =? 0 then 1 else digest mod q). intros h.
  revert calls. induction fuel as [| fuel IH]; intros calls E.
  - discriminate.
  - cbn [main.generate_signature_loop] in E.
    destruct (main.signature_attempt p a q G h secret_key
                                     (randbelow calls + 1))
      as [[[r0 s0] |] | |] eqn:A; cbn [bind] in E; try discriminate.
    + inversion E; subst.
      destruct (main_signature_attempt_accepted p a q G _ _ _ _ _ A)
        as (x & y & _ & Er & Nr & Es & Ns).
      pose proof (Z.mod_pos_bound x q Hq).
      pose proof (Z.mod_pos_bound (r * secret_key + (randbelow calls + 1) * h)
                                  q Hq).
      lia.
    + apply IH in E. lia.
Qed.

Lemma main_generate_signature_range_witness :
  main.generate_signature 17 2 19 (5, 1) (fun i => Z.of_nat i + 6) 5 3 10 0
  = Ok ((13, 5), 2%nat) /\
  1 <= 13 < 19 /\ 1 <= 5 < 19 /\ (0 < 2)%nat.
Proof.
  split; [reflexivity |].
  apply (main_generate_signature_range 17 2 19 (5, 1)
           (fun i => Z.of_nat i + 6) 5 3 10 0 2 13 5).
  - lia.
  - reflexivity.
Defined.

(** ** The modular inverses *)

(** An inverse modulo [m] is unique in [0, m). *)
Lemma inverse_unique (v m w1 w2 : Z) :
  1 < m -> 0 <= w1 < m -> 0 <= w2 < m ->
  (v * w1) mod m = 1 -> (v * w2) mod m = 1 -> w1 = w2.
Proof.
  intros Hm H1 H2 E1 E2.
  rewrite <- (Z.mod_small w1 m), <- (Z.mod_small w2 m) by assumption.
  rewrite <- (Z.mul_1_r w1), <- (Z.mul_1_r w2).
  rewrite <- (Z.mod_1_l m) by assumption.
  rewrite <- E2 at 1. rewrite <- E1.
  rewrite !Z.mul_mod_idemp_r by lia.
  f_equal. ring.
Qed.

(** [extended_gcd] on the opposite arguments: the same coefficients and the
    opposite of the first component. *)
Lemma main1_extended_gcd_opp (fuel : nat) :
  forall a b,
    main1.extended_gcd fuel (- a) (- b)
    = (r <- main1.extended_gcd fuel a b ;;
       let '(g, x, y) := r in Ok (- g, x, y)).
Proof.
  induction fuel as [| fuel IH]; intros a b; [reflexivity |].
  rewrite !main1_extended_gcd_S.
  destruct (Z.eqb_spec a 0) as [-> | Ha].
  - reflexivity.
  - destruct (Z.eqb_spec (- a) 0) as [E | _]; [lia |].
    rewrite Z.mod_opp_opp by assumption.
    rewrite Z.div_opp_opp by assumption.
    rewrite IH.
    destruct (main1.extended_gcd fuel (b mod a) a) as [[[g x] y] | e |];
      reflexivity.
Qed.

(** On a negative first argument no smaller than [- m], [extended_gcd]
    returns a negative first component. *)
Lemma main1_extended_gcd_opp_small (c m : Z) :
  0 < c <= m ->
  exists g x y,
    main1.extended_gcd (main1.gcd_fuel (- c) m) (- c) m = Ok (g, x, y)
    /\ g < 0.
Proof.
  intros Hc. unfold main1.gcd_fuel.
  rewrite main1_extended_gcd_S.
  destruct (Z.eqb_spec (- c) 0) as [E | _]; [lia |].
  pose proof (Z.mod_pos_bound (- m) c ltac:(lia)) as Hr.
  assert (Em : m mod - c = - ((- m) mod c)).
  { rewrite <- (Z.opp_involutive m) at 1. apply Z.mod_opp_opp. lia. }
  rewrite Em, main1_extended_gcd_opp.
  assert (Hl : Z.log2 ((- m) mod c) <= Z.log2 m)
    by (apply Z.log2_le_mono; lia).
  pose proof (Z.log2_nonneg ((- m) mod c)).
  pose proof (Z.log2_nonneg m).
  pose proof (Z.log2_nonneg c).
  replace (Z.abs (- c)) with c by lia.
  replace (Z.abs m) with m by lia.
  destruct (main1_extended_gcd_lt
              (S (S (Z.to_nat (Z.log2 c + Z.log2 m)))) ((- m) mod c) c)
    as (x & y & E & _); [lia | lia |].
  rewrite E. cbn [bind].
  eexists _, _, _. split; [reflexivity |].
  pose proof (Z.gcd_nonneg ((- m) mod c) c).
  assert (Z.gcd ((- m) mod c) c <> 0).
  { intros Z0. apply Z.gcd_eq_0_r in Z0. lia. }
  lia.
Qed.

Lemma main1_extended_gcd_negative (a m : Z) :
  - m <= a < 0 ->
  exists g x y,
    main1.extended_gcd (main1.gcd_fuel a m) a m = Ok (g, x, y) /\ g < 0.
Proof.
  intros Ha. rewrite <- (Z.opp_involutive a).
  apply main1_extended_gcd_opp_small. lia.
Qed.

(** [extended_gcd] of main_v6.py is the function nested in [mod_inverse]
    of main1.py. *)
Lemma main_v6_extended_gcd_eq (fuel : nat) :
  forall a b, main_v6.extended_gcd fuel a b = main1.extended_gcd fuel a b.
Proof.
  induction fuel as [| fuel IH]; intros a b; [reflexivity |].
  cbn [main_v6.extended_gcd main1.extended_gcd].
  rewrite IH. reflexivity.
Qed.

(** X11.  [extended_gcd], the function nested in [mod_inverse], returns
    on two non-negative integers their greatest common divisor with
    coefficients of Bezout's identity. *)
Theorem main1_extended_gcd_bezout (a b : Z) :
  0 <= a -> 0 <= b ->
  exists x y,
    main1.extended_gcd (main1.gcd_fuel a b) a b = Ok (Z.gcd a b, x, y) /\
    a * x + b * y = Z.gcd a b.
Proof. apply main1_extended_gcd_spec. Qed.

Lemma main1_extended_gcd_bezout_witness :
  exists x y,
    main1.extended_gcd (main1.gcd_fuel 240 46) 240 46
    = Ok (Z.gcd 240 46, x, y) /\
    240 * x + 46 * y = Z.gcd 240 46.
Proof. apply main1_extended_gcd_bezout; lia. Defined.

(** X12.  [inverse_modulo] undoes itself: for a value coprime to a
    modulus greater than 1, the inverse of the inverse is the value
    reduced modulo the modulus. *)
Theorem main_inverse_modulo_round_trip (v m : Z) :
  1 < m -> Z.gcd v m = 1 ->
  exists w,
    main.inverse_modulo v m = Ok w /\
    main.inverse_modulo w m = Ok (v mod m).
Proof.
  intros Hm Hg.
  destruct (main_inverse_modulo_coprime v m Hm Hg) as (w & Ew & Hw & Evw).
  exists w. split; [exact Ew |].
  assert (Hgw : Z.gcd w m = 1).
  { apply Z.bezout_1_gcd.
    exists v, (- ((v * w) / m)).
    pose proof (Z.div_mod (v * w) m ltac:(lia)). lia. }
  destruct (main_inverse_modulo_coprime w m Hm Hgw) as (u & Eu & Hu & Ewu).
  rewrite Eu. f_equal.
  apply (inverse_unique w m); auto.
  - apply Z.mod_pos_bound. lia.
  - rewrite Z.mul_mod_idemp_r by lia. now rewrite Z.mul_comm.
Qed.

Lemma main_inverse_modulo_round_trip_witness :
  exists w,
    main.inverse_modulo 24 17 = Ok w /\
    main.inverse_modulo w 17 = Ok (24 mod 17).
Proof.
  apply main_inverse_modulo_round_trip; [lia | reflexivity].
Defined.

(** X13.  The two inverses agree where [mod_inverse] works: for a
    non-negative value coprime to a modulus greater than 1,
    [mod_inverse] of main1.py and [inverse_modulo] of main.py return the
    same integer. *)
Theorem main1_mod_inverse_is_inverse_modulo (v m : Z) :
  1 < m -> 0 <= v -> Z.gcd v m = 1 ->
  exists w,
    main1.mod_inverse v m = Ok w /\ main.inverse_modulo v m = Ok w.
Proof.
  intros Hm Hv Hg.
  destruct (main1_mod_inverse_coprime v m Hm Hv Hg) as (w & Ew & Hw & Evw).
  destruct (main_inverse_modulo_coprime v m Hm Hg) as (u & Eu & Hu & Evu).
  exists w. split; [exact Ew |].
  rewrite Eu. f_equal. now apply (inverse_unique v m).
Qed.

Lemma main1_mod_inverse_is_inverse_modulo_witness :
  exists w,
    main1.mod_inverse 24 17 = Ok w /\ main.inverse_modulo 24 17 = Ok w.
Proof.
  apply main1_mod_inverse_is_inverse_modulo; [lia | lia | reflexivity].
Defined.

Lemma main1_mod_inverse_raises (a m : Z) :
  - m <= a < 0 -> main1.mod_inverse a m = Raise ValueError.
Proof.
  intros Ha. unfold main1.mod_inverse.
  destruct (main1_extended_gcd_negative a m Ha) as (g & x & y & E & Hg).
  rewrite E. cbn [bind].
  destruct (Z.eqb_spec g 1) as [E1 | _]; [lia | reflexivity].
Qed.

(** X14.  [mod_inverse] has no answer for a negative value: for
    [- m <= a < 0] it raises [ValueError], also when [a] is invertible
    modulo [m], because [extended_gcd] returns the opposite of the greatest
    common divisor. *)
Theorem main1_mod_inverse_negative (a m : Z) :
  - m <= a < 0 -> main1.mod_inverse a m = Raise ValueError.
Proof. apply main1_mod_inverse_raises. Qed.

Lemma main1_mod_inverse_negative_witness :
  main1.mod_inverse (- 3) 17 = Raise ValueError.
Proof. apply main1_mod_inverse_negative. lia. Defined.

(** X15.  [inverse_mod] of main_v6.py: for a modulus greater than 1 and a
    non-negative value it returns the inverse in [0, m) when the value is
    coprime to the modulus and [None] when it is not; for
    [- m <= a < 0] it returns [None] in every case. *)
Theorem main_v6_inverse_mod_spec (a m : Z) :
  1 < m -> - m <= a ->
  (0 <= a /\ Z.gcd a m = 1 /\
   exists w, main_v6.inverse_mod a m = Ok (Some w)
             /\ 0 <= w < m /\ (a * w) mod m = 1)
  \/ ((a < 0 \/ Z.gcd a m <> 1) /\ main_v6.inverse_mod a m = Ok None).
Proof.
  intros Hm Ha. unfold main_v6.inverse_mod.
  rewrite main_v6_extended_gcd_eq.
  destruct (Z_lt_le_dec a 0) as [Hneg | Hpos].
  - right. split; [left; exact Hneg |].
    destruct (main1_extended_gcd_negative a m ltac:(lia))
      as (g & x & y & E & Hg).
    rewrite E. cbn [bind].
    destruct (Z.eqb_spec g 1) as [E1 | _]; [lia | reflexivity].
  - destruct (main1_extended_gcd_spec a m) as (x & y & E & B); try lia.
    rewrite E. cbn [bind].
    destruct (Z.eqb_spec (Z.gcd a m) 1) as [Hg | Hg]; cbn [negb].
    + left. split; [exact Hpos |]. split; [exact Hg |].
      destruct (Z.eqb_spec m 0) as [-> | _]; [lia |].
      exists (x mod m). split; [reflexivity |].
      split; [apply Z.mod_pos_bound; lia |].
      rewrite Z.mul_mod_idemp_r by lia.
      replace (a * x) with (1 + (- y) * m) by lia.
      rewrite Z.mod_add by lia. apply Z.mod_small. lia.
    + right. split; [right; exact Hg | reflexivity].
Qed.

Lemma main_v6_inverse_mod_spec_witness :
  (0 <= 5 /\ Z.gcd 5 17 = 1 /\
   exists w, main_v6.inverse_mod 5 17 = Ok (Some w)
             /\ 0 <= w < 17 /\ (5 * w) mod 17 = 1)
  \/ ((5 < 0 \/ Z.gcd 5 17 <> 1) /\ main_v6.inverse_mod 5 17 = Ok None).
Proof. apply main_v6_inverse_mod_spec; lia. Defined.

(** ** The point arithmetic of main1.py and main_v3.py against main.py *)

Lemma main1_mod_inverse_eq (v m : Z) :
  1 < m -> 0 <= v -> Z.gcd v m = 1 ->
  main1.mod_inverse v m = main.inverse_modulo v m.
Proof.
  intros Hm Hv Hg.
  destruct (main1_mod_inverse_coprime v m Hm Hv Hg) as (w & Ew & Hw & Evw).
  destruct (main_inverse_modulo_coprime v m Hm Hg) as (u & Eu & Hu & Evu).
  rewrite Ew, Eu. f_equal. now apply (inverse_unique v m).
Qed.

Lemma main_inverse_modulo_mod (v m : Z) :
  v mod m <> 0 -> main.inverse_modulo (v mod m) m = main.inverse_modulo v m.
Proof.
  intros H. unfold main.inverse_modulo.
  destruct (Z.eqb_spec (v mod m) 0) as [E | _]; [contradiction |].
  destruct (Z.eqb_spec v 0) as [-> | _].
  - destruct m; simpl in H; contradiction.
  - destruct (Z.eqb_spec m 0) as [_ | Hm]; [reflexivity |].
    now rewrite Z.mod_mod by assumption.
Qed.

Lemma difference_mod_nonzero (p x1 x2 : Z) :
  0 <= x1 < p -> 0 <= x2 < p -> x1 <> x2 -> (x2 - x1) mod p <> 0.
Proof.
  intros H1 H2 NE E.
  apply Z.mod_divide in E; [| lia].
  destruct E as [c E].
  assert (Hc : c = 0 \/ 1 <= c \/ c <= -1) by lia.
  destruct Hc as [-> | [Hc | Hc]]; nia.
Qed.

Lemma opposite_test (p y1 y2 : Z) :
  0 <= y1 < p ->
  (y1 =? (- y2) mod p) = ((y1 + y2) mod p =? 0).
Proof.
  intros H1.
  destruct (Z.eqb_spec y1 ((- y2) mod p)) as [E | NE];
    destruct (Z.eqb_spec ((y1 + y2) mod p) 0) as [E0 | NE0];
    try reflexivity; exfalso.
  - apply NE0. rewrite E, Z.add_mod_idemp_l by lia.
    replace (- y2 + y2) with 0 by ring. apply Z.mod_0_l. lia.
  - apply NE. apply Z.mod_divide in E0; [| lia].
    destruct E0 as [c E0].
    replace (- y2) with (y1 + (- c) * p) by lia.
    rewrite Z.mod_add by lia. symmetry. apply Z.mod_small. exact H1.
Qed.

Lemma on_curve_reduced (p a b : Z) (P : point) :
  on_curve p a b P -> reduced p P.
Proof. destruct P as [[x y] |]; simpl; tauto. Qed.

Lemma main_curve_point_sum_reduced (p a : Z) (P Q R : point) :
  0 < p -> reduced p P -> reduced p Q ->
  main.curve_point_sum p a P Q = Ok R -> reduced p R.
Proof.
  intros Hp HP HQ.
  destruct P as [[x1 y1] |], Q as [[x2 y2] |]; cbn [main.curve_point_sum];
    try (intros E; inversion E; subst; assumption).
  destruct (_ && _); [intros E; inversion E; exact I |].
  destruct (if tuple_eqb (x1, y1) (x2, y2) then _ else _) as [g | e |];
    cbn [bind]; intros E; inversion E.
  split; apply Z.mod_pos_bound; exact Hp.
Qed.

Section OddPrime.

Variables p a : Z.
Hypothesis p_prime : Z.prime p.
Hypothesis p_odd : 2 < p.

Lemma double_ordinate_coprime (y : Z) : 0 < y < p -> Z.gcd (2 * y) p = 1.
Proof.
  intros Hy. rewrite Z.gcd_comm.
  apply Z.coprime_prime_l; [exact p_prime |].
  intros D. apply Z.divide_prime_mul in D; [| exact p_prime].
  destruct D as [D | D]; apply Z.divide_pos_le in D; lia.
Qed.

Lemma difference_coprime (x1 x2 : Z) :
  0 <= x1 < p -> 0 <= x2 < p -> x1 <> x2 ->
  Z.gcd ((x2 - x1) mod p) p = 1.
Proof.
  intros H1 H2 NE. rewrite Z.gcd_comm.
  apply Z.coprime_prime_small; [exact p_prime |].
  pose proof (difference_mod_nonzero p x1 x2 H1 H2 NE).
  pose proof (Z.mod_pos_bound (x2 - x1) p ltac:(lia)). lia.
Qed.

Lemma main1_point_add_eq (P Q : point) :
  reduced p P -> reduced p Q ->
  main1.point_add p a P Q = main.curve_point_sum p a P Q.
Proof.
  intros HP HQ.
  destruct P as [[x1 y1] |], Q as [[x2 y2] |]; try reflexivity.
  destruct HP as [Hx1 Hy1], HQ as [Hx2 Hy2].
  unfold main1.point_add, main.curve_point_sum.
  destruct ((x1 =? x2) && ((y1 + y2) mod p =? 0)) eqn:Guard;
    [reflexivity |].
  unfold tuple_eqb. cbn [fst snd].
  destruct (Z.eqb_spec x1 x2) as [Ex | Nx]; cbn [andb] in *.
  - destruct (Z.eqb_spec y1 y2) as [Ey | Ny].
    + subst x2 y2.
      destruct (Z.eqb_spec y1 0) as [-> | Hy].
      * rewrite Z.mod_0_l in Guard by lia. discriminate.
      * rewrite main1_mod_inverse_eq;
          [| lia | lia | apply double_ordinate_coprime; lia].
        destruct (main.inverse_modulo (2 * y1) p); reflexivity.
    + subst x2. rewrite Z.sub_diag, Z.mod_0_l by lia.
      rewrite main1_mod_inverse_not_coprime;
        [reflexivity | lia | lia |].
      rewrite Z.gcd_0_l. lia.
  - rewrite main1_mod_inverse_eq;
      [| lia | apply Z.mod_pos_bound; lia | now apply difference_coprime].
    rewrite main_inverse_modulo_mod
      by now apply difference_mod_nonzero.
    destruct (main.inverse_modulo (x2 - x1) p); reflexivity.
Qed.

Lemma main1_point_mult_loop_eq (fuel : nat) :
  forall k r t,
    reduced p r -> reduced p t ->
    main1.point_mult_loop p a fuel k r t
    = main.multiply_point_loop p a fuel k r t.
Proof.
  induction fuel as [| fuel IH]; intros k r t Hr Ht; [reflexivity |].
  cbn [main1.point_mult_loop main.multiply_point_loop].
  destruct (k >? 0); [| reflexivity].
  rewrite !main1_point_add_eq by assumption.
  assert (Hp : 0 < p) by lia.
  destruct (negb (Z.land k 1 =? 0)).
  - destruct (main.curve_point_sum p a r t) as [r' | e |] eqn:Er;
      cbn [bind]; try reflexivity.
    destruct (main.curve_point_sum p a t t) as [t' | e |] eqn:Et;
      cbn [bind]; try reflexivity.
    apply IH; [apply (main_curve_point_sum_reduced p a r t r')
              | apply (main_curve_point_sum_reduced p a t t t')]; assumption.
  - cbn [bind].
    destruct (main.curve_point_sum p a t t) as [t' | e |] eqn:Et;
      cbn [bind]; try reflexivity.
    apply IH; [assumption |].
    apply (main_curve_point_sum_reduced p a t t t'); assumption.
Qed.

Lemma main1_point_mult_eq (q k : Z) (P : point) :
  reduced p P ->
  main1.point_mult p a q k P = main.multiply_point p a (k mod q) P.
Proof.
  intros HP. unfold main1.point_mult, main.multiply_point.
  now apply main1_point_mult_loop_eq.
Qed.

Lemma main_v3_point_add_eq (P Q : point) :
  reduced p P -> reduced p Q ->
  main_v3.point_add p a P Q
  = catch_ValueError (main.curve_point_sum p a P Q) (Ok None).
Proof.
  intros HP HQ.
  destruct P as [[x1 y1] |], Q as [[x2 y2] |]; try reflexivity.
  destruct HP as [Hx1 Hy1], HQ as [Hx2 Hy2].
  unfold main_v3.point_add, main.curve_point_sum, main_v3.mod_inverse.
  rewrite (opposite_test p y1 y2 Hy1).
  destruct ((x1 =? x2) && ((y1 + y2) mod p =? 0)) eqn:Guard;
    [reflexivity |].
  unfold tuple_eqb. cbn [fst snd].
  destruct (Z.eqb_spec x1 x2) as [Ex | Nx]; cbn [andb] in *.
  - destruct (Z.eqb_spec y1 y2) as [Ey | Ny].
    + subst x2 y2.
      destruct (Z.eqb_spec y1 0) as [-> | Hy].
      * rewrite Z.mod_0_l in Guard by lia. discriminate.
      * rewrite main1_mod_inverse_eq;
          [| lia | lia | apply double_ordinate_coprime; lia].
        destruct (main_inverse_modulo_coprime (2 * y1) p) as (i & Ei & _);
          [lia | apply double_ordinate_coprime; lia |].
        rewrite Ei. reflexivity.
    + subst x2. rewrite Z.sub_diag. reflexivity.
  - rewrite main1_mod_inverse_eq;
      [| lia | apply Z.mod_pos_bound; lia | now apply difference_coprime].
    destruct (main_inverse_modulo_coprime ((x2 - x1) mod p) p)
      as (i & Ei & _); [lia | now apply difference_coprime |].
    rewrite main_inverse_modulo_mod in Ei
      by now apply difference_mod_nonzero.
    rewrite main_inverse_modulo_mod
      by now apply difference_mod_nonzero.
    rewrite Ei. reflexivity.
Qed.

End OddPrime.

Section OnCurve.

Variables p a b : Z.
Hypothesis p_prime : Z.prime p.
Hypothesis p_gt_3 : 3 < p.

Local Abbreviation on := (on_curve p a b).

Lemma main_v3_point_add_on (P Q : point) :
  on P -> on Q ->
  main_v3.point_add p a P Q = main.curve_point_sum p a P Q.
Proof.
  intros HP HQ.
  rewrite (main_v3_point_add_eq p a p_prime ltac:(lia) P Q)
    by (eapply on_curve_reduced; eassumption).
  destruct (main_curve_point_sum_spec p a b p_prime p_gt_3 P Q HP HQ)
    as (R & E & _).
  rewrite E. reflexivity.
Qed.

Lemma main_v3_point_mult_loop_eq (fuel : nat) :
  forall k r t,
    on r -> on t ->
    main_v3.point_mult_loop p a fuel k r t
    = main.multiply_point_loop p a fuel k r t.
Proof.
  induction fuel as [| fuel IH]; intros k r t Hr Ht; [reflexivity |].
  cbn [main_v3.point_mult_loop main.multiply_point_loop].
  destruct (k >? 0); [| reflexivity].
  rewrite !main_v3_point_add_on by assumption.
  destruct (main_curve_point_sum_spec p a b p_prime p_gt_3 r t Hr Ht)
    as (r' & Er & Hr' & _).
  destruct (main_curve_point_sum_spec p a b p_prime p_gt_3 t t Ht Ht)
    as (t' & Et & Ht' & _).
  rewrite Er, Et.
  destruct (negb (Z.land k 1 =? 0)); cbn [bind]; now apply IH.
Qed.

Lemma main_v3_point_mult_eq (q k : Z) (P : point) :
  on P ->
  main_v3.point_mult p a q k P = main.multiply_point p a (k mod q) P.
Proof.
  intros HP. unfold main_v3.point_mult.
  destruct (Z.eqb_spec k 0) as [-> | Hk]; cbn [orb].
  - replace (0 mod q) with 0 by (destruct q; reflexivity). reflexivity.
  - destruct P as [P |].
    + unfold main.multiply_point.
      now apply main_v3_point_mult_loop_eq.
    + symmetry. apply main_multiply_point_None.
Qed.

End OnCurve.

(** X16.  [point_add] of main1.py is [curve_point_sum] of main.py: over
    an odd prime field the two return the same point, or raise the same
    exception, on every two points with coordinates in [0, p), on the
    curve or not. *)
Theorem main1_point_add_is_curve_point_sum (p a : Z) (P Q : point) :
  Z.prime p -> 2 < p -> reduced p P -> reduced p Q ->
  main1.point_add p a P Q = main.curve_point_sum p a P Q.
Proof. intros. now apply main1_point_add_eq. Qed.

Lemma main1_point_add_is_curve_point_sum_witness :
  main1.point_add 17 2 (Some (5, 1)) (Some (6, 3))
  = main.curve_point_sum 17 2 (Some (5, 1)) (Some (6, 3)).
Proof.
  apply main1_point_add_is_curve_point_sum.
  - apply prime_check_sound; reflexivity.
  - lia.
  - simpl; lia.
  - simpl; lia.
Defined.

(** X17.  [point_mult] of main1.py is [multiply_point] of main.py on the
    factor reduced modulo [q]: the same point or the same exception, for
    every factor and every point with coordinates in [0, p). *)
Theorem main1_point_mult_is_multiply_point (p a q k : Z) (P : point) :
  Z.prime p -> 2 < p -> q <> 0 -> reduced p P ->
  main1.point_mult p a q k P = main.multiply_point p a (k mod q) P.
Proof. intros Hp H2 _ HP. now apply main1_point_mult_eq. Qed.

Lemma main1_point_mult_is_multiply_point_witness :
  main1.point_mult 17 2 19 45 (Some (5, 1))
  = main.multiply_point 17 2 (45 mod 19) (Some (5, 1)).
Proof.
  apply main1_point_mult_is_multiply_point.
  - apply prime_check_sound; reflexivity.
  - lia.
  - lia.
  - simpl; lia.
Defined.

(** X18.  With valid parameters [point_mult] of main1.py raises nothing
    on the base point, and the point it returns passes [is_on_curve]: the
    test of [generate_keypair] on the generated key never fails. *)
Theorem main1_point_mult_is_on_curve (p a b q k : Z) (G : Z * Z) :
  valid_parameters p a b q G ->
  exists R,
    main1.point_mult p a q k (Some G) = Ok R /\
    match R with
    | None => True
    | Some (x, y) => main1.is_on_curve p a b x y = true
    end.
Proof.
  intros (Hp & H3 & Hn & Hq & HG & HO).
  rewrite main1_point_mult_eq;
    [| exact Hp | lia | eapply on_curve_reduced; exact HG].
  rewrite (main_multiply_point_spec p a b Hp H3 Hn) by exact HG.
  eexists. split; [reflexivity |].
  pose proof (multiple_on p a b Hp H3 (Z.to_nat (k mod q)) (Some G) HG) as On.
  destruct (multiple p a (Z.to_nat (k mod q)) (Some G)) as [[x y] |];
    [| exact I].
  destruct On as (_ & _ & E). unfold main1.is_on_curve.
  apply Z.eqb_eq. exact E.
Qed.

Lemma main1_point_mult_is_on_curve_witness :
  exists R,
    main1.point_mult 17 2 19 45 (Some (5, 1)) = Ok R /\
    match R with
    | None => True
    | Some (x, y) => main1.is_on_curve 17 2 2 x y = true
    end.
Proof.
  apply main1_point_mult_is_on_curve. exact example_parameters.
Defined.

(** X19.  [point_add] of main_v3.py is [curve_point_sum] of main.py with
    its [ValueError] turned into the identity: over an odd prime field,
    on every two points with coordinates in [0, p), it returns what
    [curve_point_sum] returns, and [None] where [curve_point_sum] raises
    (two points of the same abscissa that are neither equal nor
    opposite). *)
Theorem main_v3_point_add_is_curve_point_sum (p a : Z) (P Q : point) :
  Z.prime p -> 2 < p -> reduced p P -> reduced p Q ->
  main_v3.point_add p a P Q
  = catch_ValueError (main.curve_point_sum p a P Q) (Ok None).
Proof. intros. now apply main_v3_point_add_eq. Qed.

Lemma main_v3_point_add_is_curve_point_sum_witness :
  main_v3.point_add 17 2 (Some (5, 1)) (Some (5, 2))
  = catch_ValueError (main.curve_point_sum 17 2 (Some (5, 1)) (Some (5, 2)))
                     (Ok None).
Proof.
  apply main_v3_point_add_is_curve_point_sum.
  - apply prime_check_sound; reflexivity.
  - lia.
  - simpl; lia.
  - simpl; lia.
Defined.

(** X20.  On the points of a curve over a prime field of more than 3
    elements, [point_mult] of main_v3.py is [multiply_point] of main.py on
    the factor reduced modulo [q]. *)
Theorem main_v3_point_mult_is_multiply_point (p a b q k : Z) (P : point) :
  Z.prime p -> 3 < p -> q <> 0 -> on_curve p a b P ->
  main_v3.point_mult p a q k P = main.multiply_point p a (k mod q) P.
Proof. intros Hp H3 _ HP. now apply (main_v3_point_mult_eq p a b). Qed.

Lemma main_v3_point_mult_is_multiply_point_witness :
  main_v3.point_mult 17 2 19 45 (Some (5, 1))
  = main.multiply_point 17 2 (45 mod 19) (Some (5, 1)).
Proof.
  apply (main_v3_point_mult_is_multiply_point 17 2 2).
  - apply prime_check_sound; reflexivity.
  - lia.
  - lia.
  - simpl; unfold eqp; repeat split; try lia; reflexivity.
Defined.

(** ** The signature of main_v3.py *)

(** The arithmetic of the verification equation of main_v3.py. *)
Lemma main_v3_verification_scalars (q h i d d' k r s w u1 u2 : Z) :
  Z.prime q ->
  eqp q (i * k) 1 ->
  eqp q s (i * (h + d * r)) ->
  eqp q (w * s) 1 ->
  eqp q u1 (h * w) ->
  eqp q u2 (r * w) ->
  eqp q d' d ->
  eqp q (u1 + u2 * d') k.
Proof. intros Hq. intros. nsatz. Qed.

(** What a signature returned by the loop of [sign_file] went through. *)
Lemma main_v3_sign_file_loop_returns (p a q : Z) (G : Z * Z)
      (randbelow : nat -> Z) (h d : Z) (fuel : nat) :
  forall calls r s calls',
    main_v3.sign_file_loop p a q G randbelow fuel h d calls
    = Ok ((r, s), calls') ->
    exists j x y i,
      main_v3.point_mult p a q (randbelow j + 1) (Some G) = Ok (Some (x, y))
      /\ r = x mod q /\ r <> 0
      /\ main_v3.mod_inverse (randbelow j + 1) q = Ok i
      /\ s = (i * (h + d * r)) mod q /\ s <> 0.
Proof.
  induction fuel as [| fuel IH]; intros calls r s calls' E; [discriminate |].
  cbn [main_v3.sign_file_loop] in E.
  destruct (main_v3.point_mult p a q (randbelow calls + 1) (Some G))
    as [[[x y] |] | e |] eqn:EK; cbn [bind] in E; try discriminate.
  - destruct (Z.eqb_spec (x mod q) 0) as [E0 | N0].
    + eapply IH; exact E.
    + destruct (main_v3.mod_inverse (randbelow calls + 1) q)
        as [i | e |] eqn:EI; cbn [bind] in E; try discriminate.
      destruct (Z.eqb_spec ((i * (h + d * (x mod q))) mod q) 0) as [S0 | NS];
        cbn [negb] in E.
      * eapply IH; exact E.
      * inversion E; subst. exists calls, x, y, i.
        repeat split; assumption.
  - eapply IH; exact E.
Qed.

Section MainV3.

Variables p a b q : Z.
Variable G : Z * Z.
Hypothesis valid : valid_parameters p a b q G.

Notation "P +' Q" := (point_sum p a P Q) (at level 50, left associativity).
Notation "n *' P" := (multiple p a n P) (at level 40, left associativity).
Local Abbreviation on := (on_curve p a b).

Let p_prime : Z.prime p.
Proof. apply valid. Qed.

Let p_gt_3 : 3 < p.
Proof. apply valid. Qed.

Let nonsingular : ~ eqp p (4 * a * a * a + 27 * b * b) 0.
Proof. apply valid. Qed.

Let q_prime : Z.prime q.
Proof. apply valid. Qed.

Let G_on : on (Some G).
Proof. apply valid. Qed.

Let G_order : main.multiply_point p a q (Some G) = Ok None.
Proof. apply valid. Qed.

Let q_gt_1 : 1 < q.
Proof. apply q_prime. Qed.

Lemma main_v3_point_mult_spec (k : Z) (P : point) :
  on P -> main_v3.point_mult p a q k P = Ok (Z.to_nat (k mod q) *' P).
Proof.
  intros HP.
  rewrite (main_v3_point_mult_eq p a b p_prime p_gt_3 q k P HP).
  now apply (main_multiply_point_spec p a b).
Qed.

Lemma generated_on (n : nat) : on (n *' Some G).
Proof. eapply multiple_on; eassumption. Qed.

Lemma generated_mod (k : Z) :
  0 <= k -> Z.to_nat k *' Some G = Z.to_nat (k mod q) *' Some G.
Proof.
  apply (multiple_mod_ORDER p a b q G); assumption.
Qed.

Lemma main_v3_mod_inverse_unit (k : Z) :
  1 <= k < q ->
  exists i, main_v3.mod_inverse k q = Ok i /\ eqp q (i * k) 1.
Proof.
  intros Hk.
  destruct (main1_mod_inverse_coprime k q) as (i & Ei & _ & Hi);
    [lia | lia | |].
  { rewrite Z.gcd_comm. apply Z.coprime_prime_small; [exact q_prime | lia]. }
  exists i. split; [exact Ei |].
  unfold eqp. rewrite Z.mul_comm, Hi. symmetry. apply Z.mod_1_l. lia.
Qed.

Lemma main_v3_verify_file_accepts (digest d k x y i : Z) (Q : Z * Z) :
  main_v3.point_mult p a q d (Some G) = Ok (Some Q) ->
  1 <= k < q ->
  main_v3.point_mult p a q k (Some G) = Ok (Some (x, y)) ->
  main_v3.mod_inverse k q = Ok i ->
  let h := digest mod q in
  let r := x mod q in
  let s := (i * (h + d * r)) mod q in
  r <> 0 -> s <> 0 ->
  main_v3.verify_file p a q G digest (r, s) Q = Ok true.
Proof.
  intros HQ Hk HR Hi h r s Hr Hs.
  pose proof (Z.mod_pos_bound x q ltac:(lia)) as Br. fold r in Br.
  pose proof (Z.mod_pos_bound (i * (h + d * r)) q ltac:(lia)) as Bs.
  fold s in Bs.
  rewrite main_v3_point_mult_spec in HQ by exact G_on.
  injection HQ as HQ.
  rewrite main_v3_point_mult_spec in HR by exact G_on.
  injection HR as HR.
  destruct (main_v3_mod_inverse_unit k Hk) as (i' & Ei' & Hik).
  rewrite Hi in Ei'. injection Ei' as <-.
  destruct (main_v3_mod_inverse_unit s ltac:(lia)) as (w & Ew & Hws).
  unfold main_v3.verify_file.
  destruct (Z.leb_spec 1 r); [| lia].
  destruct (Z.ltb_spec r q); [| lia].
  destruct (Z.leb_spec 1 s); [| lia].
  destruct (Z.ltb_spec s q); [| lia].
  cbn [andb negb]. cbv zeta. fold h.
  unfold main_v3.mod_inverse in Ew. unfold main_v3.mod_inverse.
  rewrite Ew.
  set (u1 := (h * w) mod q).
  set (u2 := (r * w) mod q).
  pose proof (Z.mod_pos_bound (h * w) q ltac:(lia)) as B1. fold u1 in B1.
  pose proof (Z.mod_pos_bound (r * w) q ltac:(lia)) as B2. fold u2 in B2.
  pose proof (Z.mod_pos_bound d q ltac:(lia)) as Bd.
  rewrite (main_v3_point_mult_spec u1 _ G_on). cbn [bind].
  assert (OnQ : on (Some Q)) by (rewrite <- HQ; apply generated_on).
  rewrite (main_v3_point_mult_spec u2 _ OnQ). cbn [bind].
  rewrite (main_v3_point_add_on p a b p_prime p_gt_3)
    by (eapply multiple_on; eassumption).
  assert (HS : main.curve_point_sum
                 p a (Z.to_nat (u1 mod q) *' Some G)
                 (Z.to_nat (u2 mod q) *' Some Q)
               = Ok (Some (x, y))).
  { rewrite <- HQ, <- HR.
    rewrite <- (multiple_mul p a b p_prime p_gt_3 nonsingular) by exact G_on.
    assert (Hc : (u1 mod q + u2 mod q * (d mod q)) mod q = k mod q).
    { apply (main_v3_verification_scalars q h i d (d mod q) k r s w
                                          (u1 mod q) (u2 mod q) q_prime).
      - exact Hik.
      - apply eqp_mod. exact q_prime.
      - exact Hws.
      - unfold eqp, u1. now rewrite !Z.mod_mod by lia.
      - unfold eqp, u2. now rewrite !Z.mod_mod by lia.
      - apply eqp_mod. exact q_prime. }
    rewrite <- Hc.
    pose proof (Z.mod_pos_bound u1 q ltac:(lia)).
    pose proof (Z.mod_pos_bound u2 q ltac:(lia)).
    rewrite <- (generated_mod (u1 mod q + u2 mod q * (d mod q))) by nia.
    replace (Z.to_nat (u1 mod q + u2 mod q * (d mod q)))
      with (Z.to_nat (u1 mod q)
            + Z.to_nat (u2 mod q) * Z.to_nat (d mod q))%nat by nia.
    rewrite (multiple_add p a b p_prime p_gt_3 nonsingular) by exact G_on.
    apply (point_sum_spec p a b p_prime p_gt_3); apply generated_on. }
  rewrite HS. cbn [bind]. fold r. now rewrite Z.eqb_refl.
Qed.

Variable randbelow : nat -> Z.
Hypothesis randbelow_range : forall i, 0 <= randbelow i < q - 1.

Lemma main_v3_sign_file_loop_no_raise (h d : Z) (fuel : nat) :
  forall calls e,
    main_v3.sign_file_loop p a q G randbelow fuel h d calls <> Raise e.
Proof.
  induction fuel as [| fuel IH]; intros calls e; [discriminate |].
  cbn [main_v3.sign_file_loop].
  rewrite (main_v3_point_mult_spec _ _ G_on). cbn [bind].
  destruct (Z.to_nat ((randbelow calls + 1) mod q) *' Some G)
    as [[x y] |]; [| apply IH].
  destruct (x mod q =? 0); [apply IH |].
  pose proof (randbelow_range calls) as Hk.
  destruct (main_v3_mod_inverse_unit (randbelow calls + 1) ltac:(lia))
    as (i & Ei & _).
  rewrite Ei. cbn [bind].
  destruct (negb _); [discriminate | apply IH].
Qed.

End MainV3.

(** X21.  With valid parameters and a generator that answers in
    [0, q - 1), [generate_keypair] of main_v3.py raises nothing: it
    returns a private key in [1, q) and a public key on the curve. *)
Theorem main_v3_generate_keypair_valid (p a b q : Z) (G : Z * Z)
        (randbelow : nat -> Z) (calls : nat) :
  valid_parameters p a b q G ->
  0 <= randbelow calls < q - 1 ->
  exists d Q,
    main_v3.generate_keypair p a q G randbelow calls = Ok (d, Q, S calls) /\
    1 <= d < q /\ on_curve p a b (Some Q).
Proof.
  intros V Hr. pose proof V as (Hp & H3 & Hn & Hq & HG & HO).
  unfold main_v3.generate_keypair.
  rewrite (main_v3_point_mult_spec p a b q G V) by exact HG.
  cbn [bind].
  rewrite Z.mod_small by lia.
  pose proof (multiple_order_exact p a b q G V
                (Z.to_nat (randbelow calls + 1)) ltac:(lia) ltac:(lia)) as NE.
  pose proof (multiple_on p a b Hp H3 (Z.to_nat (randbelow calls + 1))
                          (Some G) HG) as On.
  destruct (multiple p a (Z.to_nat (randbelow calls + 1)) (Some G))
    as [Q |]; [| congruence].
  exists (randbelow calls + 1), Q. repeat split; auto; lia.
Qed.

Lemma main_v3_generate_keypair_valid_witness :
  exists d Q,
    main_v3.generate_keypair 17 2 19 (5, 1) (fun _ => 6) 0
    = Ok (d, Q, 1%nat) /\
    1 <= d < 19 /\ on_curve 17 2 2 (Some Q).
Proof.
  apply (main_v3_generate_keypair_valid 17 2 2 19 (5, 1) (fun _ => 6) 0%nat).
  - exact example_parameters.
  - lia.
Defined.

(** X22.  Signing then verifying in main_v3.py: with valid parameters, a
    generator that answers in [0, q - 1) and the public key of the
    private key, [sign_file] raises nothing, and every signature it
    returns has its two components in [1, q) and is accepted by
    [verify_file] for the same digest. *)
Theorem main_v3_sign_then_verify (p a b q : Z) (G : Z * Z)
        (randbelow : nat -> Z) (fuel : nat) (digest d : Z) (Q : Z * Z)
        (calls : nat) :
  valid_parameters p a b q G ->
  (forall i, 0 <= randbelow i < q - 1) ->
  main_v3.point_mult p a q d (Some G) = Ok (Some Q) ->
  (forall e,
      main_v3.sign_file p a q G randbelow fuel digest d calls <> Raise e) /\
  (forall r s calls',
      main_v3.sign_file p a q G randbelow fuel digest d calls
      = Ok ((r, s), calls') ->
      1 <= r < q /\ 1 <= s < q /\
      main_v3.verify_file p a q G digest (r, s) Q = Ok true).
Proof.
  intros V Hr HQ. pose proof V as (Hp & H3 & Hn & Hq & HG & HO).
  assert (Hq1 : 1 < q) by apply Hq.
  unfold main_v3.sign_file. split.
  - intros e. now apply (main_v3_sign_file_loop_no_raise p a b q G V).
  - intros r s calls' E.
    destruct (main_v3_sign_file_loop_returns _ _ _ _ _ _ _ _ _ _ _ _ E)
      as (j & x & y & i & HK & -> & Nr & HI & -> & Ns).
    pose proof (Z.mod_pos_bound x q ltac:(lia)).
    pose proof (Z.mod_pos_bound (i * (digest mod q + d * (x mod q))) q
                                ltac:(lia)).
    split; [lia |]. split; [lia |].
    apply (main_v3_verify_file_accepts p a b q G V digest d
                                       (randbelow j + 1) x y i Q);
      auto.
    specialize (Hr j). lia.
Qed.

Lemma main_v3_sign_then_verify_witness :
  main_v3.sign_file 17 2 19 (5, 1) (fun i => 6 + Z.of_nat (i mod 2)) 5 10 3 0
  = Ok ((13, 18), 2%nat) /\
  1 <= 13 < 19 /\ 1 <= 18 < 19 /\
  main_v3.verify_file 17 2 19 (5, 1) 10 (13, 18) (10, 6) = Ok true.
Proof.
  assert (Hs : main_v3.sign_file 17 2 19 (5, 1)
                                 (fun i => 6 + Z.of_nat (i mod 2)) 5 10 3 0
               = Ok ((13, 18), 2%nat)) by reflexivity.
  assert (Hr : forall i : nat, 0 <= 6 + Z.of_nat (i mod 2) < 19 - 1).
  { intros i. pose proof (Nat.mod_upper_bound i 2). lia. }
  assert (HQ : main_v3.point_mult 17 2 19 3 (Some (5, 1)) = Ok (Some (10, 6)))
    by reflexivity.
  split; [exact Hs |].
  exact (proj2 (main_v3_sign_then_verify 17 2 2 19 (5, 1)
                  (fun i => 6 + Z.of_nat (i mod 2)) 5 10 3 (10, 6) 0
                  example_parameters Hr HQ) 13 18 2%nat Hs).
Defined.

(** X23.  With valid parameters and a public key on the curve,
    [verify_file] of main_v3.py raises nothing: it answers [True] or
    [False] on every digest and every pair of integers. *)
Theorem main_v3_verify_file_total (p a b q digest r s : Z) (G Q : Z * Z) :
  valid_parameters p a b q G ->
  on_curve p a b (Some Q) ->
  exists answer, main_v3.verify_file p a q G digest (r, s) Q = Ok answer.
Proof.
  intros V HK. pose proof V as (Hp & H3 & Hn & Hq & HG & HO).
  unfold main_v3.verify_file.
  destruct (negb _) eqn:Range; [eexists; reflexivity |].
  apply negb_false_iff in Range.
  apply andb_true_iff in Range. destruct Range as [Range Hs2].
  apply andb_true_iff in Range. destruct Range as [Range Hs1].
  apply Z.leb_le in Hs1. apply Z.ltb_lt in Hs2.
  destruct (main_v3_mod_inverse_unit p a b q G V s ltac:(lia))
    as (w & Ew & _).
  unfold main_v3.mod_inverse in Ew. unfold main_v3.mod_inverse.
  rewrite Ew. cbv zeta.
  rewrite !(main_v3_point_mult_spec p a b q G V) by assumption.
  cbn [bind].
  rewrite (main_v3_point_add_on p a b Hp H3)
    by (eapply multiple_on; eassumption).
  destruct (point_sum_spec p a b Hp H3
              (multiple p a (Z.to_nat ((digest mod q * w) mod q mod q))
                        (Some G))
              (multiple p a (Z.to_nat ((r * w) mod q mod q)) (Some Q)))
    as (E & _); try (eapply multiple_on; eassumption).
  rewrite E. cbn [bind].
  destruct (point_sum p a _ _) as [[x y] |]; eexists; reflexivity.
Qed.

Lemma main_v3_verify_file_total_witness :
  exists answer,
    main_v3.verify_file 17 2 19 (5, 1) 10 (13, 6) (6, 3) = Ok answer.
Proof.
  apply (main_v3_verify_file_total 17 2 2).
  - exact example_parameters.
  - simpl; unfold eqp; repeat split; try lia; reflexivity.
Defined.

(** ** The point arithmetic of main_v2.py and main_v6.py *)

Lemma main_v6_inverse_mod_negative (a m : Z) :
  - m <= a < 0 -> main_v6.inverse_mod a m = Ok None.
Proof.
  intros Ha. unfold main_v6.inverse_mod.
  rewrite main_v6_extended_gcd_eq.
  destruct (main1_extended_gcd_negative a m Ha) as (g & x & y & E & Hg).
  rewrite E. cbn [bind].
  destruct (Z.eqb_spec g 1) as [E1 | _]; [lia | reflexivity].
Qed.

(** X24.  [point_add] of main_v2.py passes [x2 - x1] to [mod_inverse]
    without reducing it.  Over an odd prime field, on two points with
    coordinates in [0, p): when the second abscissa is the smaller one it
    raises [ValueError], and in every other case it is [curve_point_sum]
    of main.py. *)
Theorem main_v2_point_add_spec (p a x1 y1 x2 y2 : Z) :
  Z.prime p -> 2 < p ->
  0 <= x1 < p -> 0 <= y1 < p -> 0 <= x2 < p -> 0 <= y2 < p ->
  main_v2.point_add p a (Some (x1, y1)) (Some (x2, y2))
  = if x2 <? x1 then Raise ValueError
    else main.curve_point_sum p a (Some (x1, y1)) (Some (x2, y2)).
Proof.
  intros Hp H2 Hx1 Hy1 Hx2 Hy2.
  unfold main_v2.point_add, main.curve_point_sum, main_v2.mod_inverse.
  rewrite (opposite_test p y1 y2 Hy1).
  unfold tuple_eqb. cbn [fst snd].
  destruct (Z.ltb_spec x2 x1) as [Lt | Ge].
  - destruct (Z.eqb_spec x1 x2) as [E | _]; [lia |]. cbn [andb].
    rewrite main1_mod_inverse_raises by lia. reflexivity.
  - destruct ((x1 =? x2) && ((y1 + y2) mod p =? 0)) eqn:Guard;
      [reflexivity |].
    destruct (Z.eqb_spec x1 x2) as [Ex | Nx]; cbn [andb] in *.
    + destruct (Z.eqb_spec y1 y2) as [Ey | Ny].
      * subst x2 y2.
        assert (Hy : y1 <> 0).
        { intros ->. rewrite Z.mod_0_l in Guard by lia. discriminate. }
        rewrite main1_mod_inverse_eq;
          [| lia | lia | apply (double_ordinate_coprime p Hp); lia].
        reflexivity.
      * subst x2. rewrite Z.sub_diag.
        rewrite main1_mod_inverse_not_coprime;
          [reflexivity | lia | lia |].
        rewrite Z.gcd_0_l. lia.
    + rewrite main1_mod_inverse_eq; [reflexivity | lia | lia |].
      rewrite Z.gcd_comm. apply Z.coprime_prime_small; [exact Hp | lia].
Qed.

Lemma main_v2_point_add_spec_witness :
  main_v2.point_add 17 2 (Some (6, 3)) (Some (5, 1))
  = if 5 <? 6 then Raise ValueError
    else main.curve_point_sum 17 2 (Some (6, 3)) (Some (5, 1)).
Proof.
  apply main_v2_point_add_spec; try lia.
  apply prime_check_sound; reflexivity.
Defined.

(** X25.  [add_points] of main_v6.py passes [x_q - x_p] to [inverse_mod]
    without reducing it: whenever the abscissa of the second point,
    reduced modulo [p], is the smaller one, the sum returned is the
    identity, whatever the two points are. *)
Theorem main_v6_add_points_smaller_abscissa (p a x_p y_p x_q y_q : Z) :
  0 < p -> x_q mod p < x_p mod p ->
  main_v6.add_points p a (Some (x_p, y_p)) (Some (x_q, y_q)) = Ok None.
Proof.
  intros Hp Lt. unfold main_v6.add_points. cbv zeta.
  destruct (Z.eqb_spec (x_p mod p) (x_q mod p)) as [E | _]; [lia |].
  cbn [andb].
  pose proof (Z.mod_pos_bound x_p p Hp).
  pose proof (Z.mod_pos_bound x_q p Hp).
  rewrite main_v6_inverse_mod_negative by lia. reflexivity.
Qed.

Lemma main_v6_add_points_smaller_abscissa_witness :
  main_v6.add_points 17 2 (Some (6, 3)) (Some (5, 1)) = Ok None.
Proof.
  apply main_v6_add_points_smaller_abscissa; [lia | reflexivity].
Defined.

(** X26.  [multiply_point] of main_v6.py doubles its addend once more
    than it uses it, and [double_point] unpacks its argument: on the
    identity it raises [TypeError] for every factor other than 0, and on
    a point whose ordinate is 0 modulo [p] for every factor other than 0
    and 1. *)
Theorem main_v6_multiply_point_TypeError (p a k : Z) (P : point) :
  p <> 0 -> k <> 0 ->
  match P with
  | None => True
  | Some (_, y) => y mod p = 0 /\ k <> 1
  end ->
  main_v6.multiply_point p a P k = Raise TypeError.
Proof.
  intros _ Hk0 HP. unfold main_v6.multiply_point, bits_fuel.
  destruct P as [[x y] |].
  - destruct HP as [Hy Hk1].
    assert (Hf : exists f, Z.to_nat (Z.log2 k + 1) = S f).
    { pose proof (Z.log2_nonneg k).
      exists (Z.to_nat (Z.log2 k)). lia. }
    destruct Hf as [f ->].
    cbn [main_v6.multiply_point_loop].
    destruct (Z.eqb_spec k 0) as [E | _]; [contradiction |]. cbn [negb].
    assert (Hh : k / 2 <> 0).
    { intros E. apply Z.div_small_iff in E; lia. }
    destruct (Z.eqb_spec (k / 2) 0) as [E | _]; [contradiction |].
    cbn [negb].
    assert (Hd : main_v6.double_point p a (Some (x, y)) = Ok None).
    { unfold main_v6.double_point. cbv zeta. rewrite Hy. reflexivity. }
    rewrite Hd.
    destruct (k mod 2 =? 1); cbn [bind main_v6.add_points];
      destruct ((k / 2) mod 2 =? 1); reflexivity.
  - cbn [main_v6.multiply_point_loop].
    destruct (Z.eqb_spec k 0) as [E | _]; [contradiction |]. cbn [negb].
    destruct (k mod 2 =? 1); reflexivity.
Qed.

Lemma main_v6_multiply_point_TypeError_witness :
  main_v6.multiply_point 17 2 (Some (3, 34)) 6 = Raise TypeError.
Proof.
  apply main_v6_multiply_point_TypeError; [lia | lia |].
  split; [reflexivity | lia].
Defined.

(** X27.  [verify_signature] of main_v6.py inverts the digest modulo
    [n]: for a modulus other than 0 and 1 and a digest that is a multiple of
    it, the answer is [False] for every key and every pair [(r, s)]. *)
Theorem main_v6_verify_signature_zero_digest
        (p a n xG yG digest r s : Z) (Q : point) :
  n <> 0 -> n <> 1 -> digest mod n = 0 ->
  main_v6.verify_signature p a n xG yG digest Q r s = Ok false.
Proof.
  intros _ Hn Hd. apply main_v6_verify_signature_no_inverse.
  unfold main_v6.hash_file. rewrite Hd.
  unfold main_v6.inverse_mod, main1.gcd_fuel.
  cbn [main_v6.extended_gcd Z.eqb bind].
  destruct (Z.eqb_spec n 1) as [E | _]; [contradiction | reflexivity].
Qed.

Lemma main_v6_verify_signature_zero_digest_witness :
  main_v6.verify_signature 17 2 19 5 1 38 (Some (10, 6)) 13 5 = Ok false.
Proof.
  apply main_v6_verify_signature_zero_digest; [lia | lia | reflexivity].
Defined.

(** ** What the two verifications do not tell apart *)

Lemma opp_mod_mod (n q : Z) : q <> 0 -> (- (n mod q)) mod q = (- n) mod q.
Proof.
  intros Hq.
  replace (- n) with (- (n mod q) + (- (n / q)) * q).
  - now rewrite Z.mod_add.
  - pose proof (Z.div_mod n q Hq). lia.
Qed.

Lemma mul_opposite_mod (n i q : Z) :
  q <> 0 -> (n * (q - i)) mod q = (- ((n * i) mod q)) mod q.
Proof.
  intros Hq. rewrite opp_mod_mod by assumption.
  replace (n * (q - i)) with (- (n * i) + n * q) by ring.
  now rewrite Z.mod_add.
Qed.

Lemma opposite_inverse (v w q : Z) :
  1 < q -> (v * w) mod q = 1 -> ((q - v) * (q - w)) mod q = 1.
Proof.
  intros Hq E.
  replace ((q - v) * (q - w)) with (v * w + (q - w - v) * q) by ring.
  now rewrite Z.mod_add by lia.
Qed.

Section Symmetry.

Variables p a b q : Z.
Variable G : Z * Z.
Hypothesis valid : valid_parameters p a b q G.

Notation "P +' Q" := (point_sum p a P Q) (at level 50, left associativity).
Notation "n *' P" := (multiple p a n P) (at level 40, left associativity).
Local Abbreviation on := (on_curve p a b).

Let p_prime : Z.prime p.
Proof. apply valid. Qed.

Let p_gt_3 : 3 < p.
Proof. apply valid. Qed.

Let nonsingular : ~ eqp p (4 * a * a * a + 27 * b * b) 0.
Proof. apply valid. Qed.

Let q_prime : Z.prime q.
Proof. apply valid. Qed.

Let q_gt_1 : 1 < q.
Proof. apply q_prime. Qed.

Let sum_comm (P Q : point) : on P -> on Q -> P +' Q = Q +' P.
Proof. intros. eapply point_sum_comm; eassumption. Qed.

Let sum_assoc (P Q R : point) :
  on P -> on Q -> on R -> (P +' Q) +' R = P +' (Q +' R).
Proof. intros. eapply point_sum_assoc; eassumption. Qed.

Let sum_on (P Q : point) : on P -> on Q -> on (P +' Q).
Proof. intros. eapply point_sum_on; eassumption. Qed.

Let sum_spec (P Q : point) :
  on P -> on Q -> main.curve_point_sum p a P Q = Ok (P +' Q).
Proof. intros. eapply point_sum_spec; eassumption. Qed.

Let opp_on (P : point) : on P -> on (negate p P).
Proof. intros. eapply negate_on; eassumption. Qed.

Let mul_on (n : nat) (P : point) : on P -> on (n *' P).
Proof. intros. eapply multiple_on; eassumption. Qed.

Lemma opposite_unique (X Y : point) :
  on X -> on Y -> X +' Y = None -> X = negate p Y.
Proof.
  intros HX HY E.
  apply (point_sum_cancel_r p a b p_prime p_gt_3 nonsingular _ _ Y);
    auto.
  rewrite E, sum_comm by auto.
  symmetry. apply point_sum_negate. lia.
Qed.

Lemma negate_point_sum (P Q : point) :
  on P -> on Q -> negate p P +' negate p Q = negate p (P +' Q).
Proof.
  intros HP HQ. apply opposite_unique; auto.
  rewrite sum_assoc by auto.
  rewrite (sum_comm P Q) by auto.
  rewrite <- (sum_assoc (negate p Q) Q P) by auto.
  rewrite (sum_comm (negate p Q) Q) by auto.
  rewrite point_sum_negate by lia.
  rewrite point_sum_None_l, sum_comm by auto.
  apply point_sum_negate. lia.
Qed.

Section Point.

Variable X : Z * Z.
Hypothesis X_on : on (Some X).
Hypothesis X_order : main.multiply_point p a q (Some X) = Ok None.

Lemma multiple_opposite (u : Z) :
  0 <= u < q ->
  Z.to_nat ((- u) mod q) *' Some X = negate p (Z.to_nat u *' Some X).
Proof.
  intros Hu. apply opposite_unique; auto.
  pose proof (Z.mod_pos_bound (- u) q ltac:(lia)) as Hm.
  rewrite <- (multiple_add p a b p_prime p_gt_3 nonsingular) by exact X_on.
  replace (Z.to_nat ((- u) mod q) + Z.to_nat u)%nat
    with (Z.to_nat ((- u) mod q + u)) by lia.
  rewrite (multiple_mod_ORDER p a b q X p_prime p_gt_3 nonsingular q_prime
                              X_on X_order) by lia.
  rewrite Z.add_mod_idemp_l by lia.
  replace (- u + u) with 0 by ring.
  rewrite Z.mod_0_l by lia. reflexivity.
Qed.

End Point.

Lemma main_multiply_point_opposite (X : Z * Z) (u : Z) :
  on (Some X) -> main.multiply_point p a q (Some X) = Ok None ->
  0 <= u < q ->
  main.multiply_point p a ((- u) mod q) (Some X)
  = Ok (negate p (Z.to_nat u *' Some X)).
Proof.
  intros HX HO Hu.
  rewrite (main_multiply_point_spec p a b p_prime p_gt_3 nonsingular)
    by exact HX.
  now rewrite multiple_opposite.
Qed.

Lemma main_curve_point_sum_opposite (A B : point) :
  on A -> on B ->
  main.curve_point_sum p a (negate p A) (negate p B)
  = Ok (negate p (A +' B)).
Proof.
  intros HA HB. rewrite sum_spec by auto.
  now rewrite negate_point_sum.
Qed.

End Symmetry.

(** X28.  [check_signature] of main.py does not tell a digest from its
    opposite: with valid parameters and an open key of the curve that
    [ORDER] sends to the identity, a pair is accepted for the digest [e]
    exactly when it is accepted for [- e]. *)
Theorem main_check_signature_opposite_digest
        (p a b q digest r s : Z) (G Q : Z * Z) :
  valid_parameters p a b q G ->
  on_curve p a b (Some Q) ->
  main.multiply_point p a q (Some Q) = Ok None ->
  main.check_signature p a q G (- digest) (r, s) (Some Q)
  = main.check_signature p a q G digest (r, s) (Some Q).
Proof.
  intros V HQ HO. pose proof V as (Hp & H3 & Hn & Hq & HG & HGO).
  assert (Hq1 : 1 < q) by apply Hq.
  unfold main.check_signature.
  destruct (negb _); [reflexivity |].
  cbv zeta.
  destruct (Z.eq_dec (digest mod q) 0) as [E0 | N0].
  - assert (E1 : (- digest) mod q = 0).
    { rewrite <- opp_mod_mod, E0 by lia. reflexivity. }
    rewrite E1, E0. reflexivity.
  - pose proof (Z.mod_pos_bound digest q ltac:(lia)) as Hh.
    assert (E1 : (- digest) mod q = q - digest mod q).
    { rewrite <- opp_mod_mod by lia.
      replace (- (digest mod q)) with (q - digest mod q + (- 1) * q) by ring.
      rewrite Z.mod_add by lia. apply Z.mod_small. lia. }
    rewrite E1.
    destruct (Z.eqb_spec (q - digest mod q) 0) as [E | _]; [lia |].
    destruct (Z.eqb_spec (digest mod q) 0) as [E | _]; [contradiction |].
    set (h := digest mod q) in *.
    assert (Hg : Z.gcd h q = 1).
    { rewrite Z.gcd_comm. apply Z.coprime_prime_small; [exact Hq | lia]. }
    assert (Hg' : Z.gcd (q - h) q = 1).
    { rewrite Z.gcd_comm. apply Z.coprime_prime_small; [exact Hq | lia]. }
    destruct (main_inverse_modulo_coprime h q Hq1 Hg) as (i & Ei & Bi & Hi).
    destruct (main_inverse_modulo_coprime (q - h) q Hq1 Hg')
      as (i' & Ei' & Bi' & Hi').
    assert (i <> 0).
    { intros ->. rewrite Z.mul_0_r, Z.mod_0_l in Hi by lia. discriminate. }
    assert (Eq : i' = q - i).
    { apply (inverse_unique (q - h) q); auto; [lia |].
      now apply opposite_inverse. }
    rewrite Ei, Ei'. cbn [bind]. subst i'.
    rewrite (mul_opposite_mod s i q), (mul_opposite_mod (- r) i q) by lia.
    set (u1 := (s * i) mod q).
    set (u2 := (- r * i) mod q).
    pose proof (Z.mod_pos_bound (s * i) q ltac:(lia)) as B1. fold u1 in B1.
    pose proof (Z.mod_pos_bound (- r * i) q ltac:(lia)) as B2.
    fold u2 in B2.
    rewrite (main_multiply_point_opposite p a b q G V G u1 HG HGO B1).
    rewrite (main_multiply_point_opposite p a b q G V Q u2 HQ HO B2).
    rewrite !(main_multiply_point_spec p a b Hp H3 Hn) by assumption.
    cbn [bind].
    pose proof (multiple_on p a b Hp H3 (Z.to_nat u1) (Some G) HG) as On1.
    pose proof (multiple_on p a b Hp H3 (Z.to_nat u2) (Some Q) HQ) as On2.
    rewrite (main_curve_point_sum_opposite p a b q G V _ _ On1 On2).
    rewrite (proj1 (point_sum_spec p a b Hp H3 _ _ On1 On2)).
    cbn [bind].
    destruct (point_sum p a _ _) as [[x y] |]; reflexivity.
Qed.

Lemma main_check_signature_opposite_digest_witness :
  main.check_signature 17 2 19 (5, 1) (Z.opp 10) (13, 5) (Some (10, 6))
  = main.check_signature 17 2 19 (5, 1) 10 (13, 5) (Some (10, 6)).
Proof.
  apply (main_check_signature_opposite_digest 17 2 2 19 10 13 5 (5, 1)
                                              (10, 6)).
  - exact example_parameters.
  - simpl; unfold eqp; repeat split; try lia; reflexivity.
  - reflexivity.
Defined.

(** X29.  [verify_file] of main_v3.py does not tell [s] from [q - s]:
    with valid parameters and a public key of the curve that [q] sends to
    the identity, the pair [(r, s)] is accepted exactly when the pair
    [(r, q - s)] is. *)
Theorem main_v3_verify_file_opposite_s
        (p a b q digest r s : Z) (G Q : Z * Z) :
  valid_parameters p a b q G ->
  on_curve p a b (Some Q) ->
  main.multiply_point p a q (Some Q) = Ok None ->
  main_v3.verify_file p a q G digest (r, q - s) Q
  = main_v3.verify_file p a q G digest (r, s) Q.
Proof.
  intros V HQ HO. pose proof V as (Hp & H3 & Hn & Hq & HG & HGO).
  assert (Hq1 : 1 < q) by apply Hq.
  unfold main_v3.verify_file.
  destruct (Z.leb_spec 1 r); [| reflexivity].
  destruct (Z.ltb_spec r q); [| reflexivity].
  cbn [andb].
  destruct (Z.leb_spec 1 s) as [Hs1 | Hs1];
    destruct (Z.ltb_spec s q) as [Hs2 | Hs2];
    destruct (Z.leb_spec 1 (q - s)); destruct (Z.ltb_spec (q - s) q);
    try lia; try reflexivity.
  cbn [andb negb]. cbv zeta. unfold main_v3.mod_inverse.
  assert (Hg : Z.gcd s q = 1).
  { rewrite Z.gcd_comm. apply Z.coprime_prime_small; [exact Hq | lia]. }
  assert (Hg' : Z.gcd (q - s) q = 1).
  { rewrite Z.gcd_comm. apply Z.coprime_prime_small; [exact Hq | lia]. }
  destruct (main1_mod_inverse_coprime s q Hq1 ltac:(lia) Hg)
    as (w & Ew & Bw & Hw).
  destruct (main1_mod_inverse_coprime (q - s) q Hq1 ltac:(lia) Hg')
    as (w' & Ew' & Bw' & Hw').
  assert (w <> 0).
  { intros ->. rewrite Z.mul_0_r, Z.mod_0_l in Hw by lia. discriminate. }
  assert (Eq : w' = q - w).
  { apply (inverse_unique (q - s) q); auto; [lia |].
    now apply opposite_inverse. }
  rewrite Ew, Ew'. subst w'.
  rewrite (mul_opposite_mod (digest mod q) w q),
          (mul_opposite_mod r w q) by lia.
  set (u1 := (digest mod q * w) mod q).
  set (u2 := (r * w) mod q).
  pose proof (Z.mod_pos_bound (digest mod q * w) q ltac:(lia)) as B1.
  fold u1 in B1.
  pose proof (Z.mod_pos_bound (r * w) q ltac:(lia)) as B2. fold u2 in B2.
  rewrite !(main_v3_point_mult_spec p a b q G V) by assumption.
  rewrite !Z.mod_mod by lia.
  rewrite (Z.mod_small u1 q), (Z.mod_small u2 q) by assumption.
  rewrite (multiple_opposite p a b q G V G HG HGO u1 B1).
  rewrite (multiple_opposite p a b q G V Q HQ HO u2 B2).
  cbn [bind].
  pose proof (multiple_on p a b Hp H3 (Z.to_nat u1) (Some G) HG) as On1.
  pose proof (multiple_on p a b Hp H3 (Z.to_nat u2) (Some Q) HQ) as On2.
  rewrite !(main_v3_point_add_on p a b Hp H3)
    by (try assumption; eapply negate_on; eassumption).
  rewrite (main_curve_point_sum_opposite p a b q G V _ _ On1 On2).
  rewrite (proj1 (point_sum_spec p a b Hp H3 _ _ On1 On2)).
  cbn [bind].
  destruct (point_sum p a _ _) as [[x y] |]; reflexivity.
Qed.

Lemma main_v3_verify_file_opposite_s_witness :
  main_v3.verify_file 17 2 19 (5, 1) 10 (13, 19 - 18) (10, 6)
  = main_v3.verify_file 17 2 19 (5, 1) 10 (13, 18) (10, 6).
Proof.
  apply (main_v3_verify_file_opposite_s 17 2 2).
  - exact example_parameters.
  - simpl; unfold eqp; repeat split; try lia; reflexivity.
  - reflexivity.
Defined.
